(** * html2mdTables: HTML tables to GitHub-flavoured Markdown

    A shallow embedding of [dify.py] (the in-place converter
    [replace_tables_in_place] with its [HTMLParser]-based [TableParser]) and
    of [main.py] (the [BeautifulSoup]-based [html_table_to_flat_markdown]),
    together with the properties stated in the specification.

    Python values are modelled as follows.
    - [str] is a sequence of Unicode code points ([list N]).  ASCII literals
      are written [u "..."].
    - [int] is [Z]; list indices and string offsets that are never negative
      in the source are [nat]; [str.find] returns [None] for [-1].
    - a call that can raise returns in [res]; [Diverges] stands for a loop
      that has used up its fuel, and is shown not to occur. *)

From Stdlib Require Import ZArith NArith Lia Bool.
From Stdlib Require String Ascii DecimalString.
From stdpp Require Import base option list numbers gmap.

Import String.StringSyntax.
Local Open Scope N_scope.

(** ** Python values and builtins *)

Abbreviation str := (list N).

Definition u (s : String.string) : str :=
  map Ascii.N_of_ascii (String.list_ascii_of_string s).
Arguments u s%_string_scope.

Definition nl : str := [10].

(** Truthiness of a [str]: [if s:] / [if not s:]. *)
Definition truthy (s : str) : bool :=
  match s with [] => false | _ => true end.

Inductive exn := TypeError | ValueError | AttributeError | IndexError.

Inductive res (A : Type) : Type :=
| Returns (a : A)
| Raises (e : exn)
| Diverges.
Arguments Returns {A} a.
Arguments Raises {A} e.
Arguments Diverges {A}.

#[global] Instance res_ret : MRet res := fun A a => Returns a.
#[global] Instance res_bind : MBind res := fun A B k m =>
  match m with
  | Returns a => k a
  | Raises e => Raises e
  | Diverges => Diverges
  end.
#[global] Instance res_fmap : FMap res := fun A B f m =>
  match m with
  | Returns a => Returns (f a)
  | Raises e => Raises e
  | Diverges => Diverges
  end.

(** [try: m  except Exception: h] *)
Definition try_except {A} (m : res A) (h : res A) : res A :=
  match m with
  | Raises _ => h
  | _ => m
  end.

(** [l[i]] on a list, raising [IndexError] out of range. *)
Definition index {A} (l : list A) (i : nat) : res A :=
  match l !! i with
  | Some x => Returns x
  | None => Raises IndexError
  end.

Fixpoint foldM {A B} (f : A → B → res A) (a : A) (l : list B) : res A :=
  match l with
  | [] => Returns a
  | x :: l => a' ← f a x; foldM f a' l
  end.

Definition between (lo hi c : N) : bool := (lo <=? c) && (c <=? hi).

(** [str.lower].  ASCII capitals fold to small letters.  U+0130 (capital I
    with dot above) is the code point whose lowercase form is two code
    points, U+0069 U+0307, so [lower] can be longer than its argument.
    Every other cased letter outside ASCII folds one-for-one; the result is
    only ever searched for ["<table"], [">"] and ["</table>"] or compared
    with [table], [tr], [td], [th], [rowspan], [colspan], none of which
    contains such a letter, so those code points are left in place. *)
Definition lower_cp (c : N) : str :=
  if between 65 90 c then [c + 32]
  else if c =? 304 then [105; 775]
  else [c].

Definition lower (s : str) : str := concat (map lower_cp s).

(** [s.startswith(p)] *)
Fixpoint startswith (p s : str) : bool :=
  match p, s with
  | [], _ => true
  | a :: p', b :: s' => (a =? b) && startswith p' s'
  | _ :: _, [] => false
  end.

(** [find_at p s i] scans [s], the suffix that starts at offset [i]. *)
Fixpoint find_at (p s : str) (i : nat) : option nat :=
  if startswith p s then Some i
  else match s with
       | [] => None
       | _ :: s' => find_at p s' (S i)
       end.

(** [s.find(p, start)] for [start >= 0]; [None] is Python's [-1]. *)
Definition find (p s : str) (start : nat) : option nat :=
  if (start <=? length s)%nat then find_at p (drop start s) start else None.

(** [s[a:b]] for non-negative [a], [b] (out-of-range offsets are clamped). *)
Definition slice (s : str) (a b : nat) : str := take (b - a) (drop a s).

(** [str.isspace] of one code point. *)
Definition isspace (c : N) : bool :=
  between 9 13 c || between 28 32 c || (c =? 133) || (c =? 160)
  || (c =? 5760) || between 8192 8202 c || between 8232 8233 c
  || (c =? 8239) || (c =? 8287) || (c =? 12288).

Fixpoint lstrip (s : str) : str :=
  match s with
  | c :: s' => if isspace c then lstrip s' else s
  | [] => []
  end.

Definition rstrip (s : str) : str := reverse (lstrip (reverse s)).

(** [s.strip()] *)
Definition strip (s : str) : str := rstrip (lstrip s).

(** [s.replace(old, new)] for a one-character [old]. *)
Definition replace (old : N) (new : str) (s : str) : str :=
  concat (map (fun c => if c =? old then new else [c]) s).

(** [sep.join(parts)] *)
Fixpoint join (sep : str) (parts : list str) : str :=
  match parts with
  | [] => []
  | [p] => p
  | p :: ps => p ++ sep ++ join sep ps
  end.

(** [str(n)] for a natural number. *)
Definition str_of_nat (n : nat) : str :=
  u (DecimalString.NilEmpty.string_of_uint (Nat.to_uint n)).

(** [range(a, b)] *)
Definition range (a b : Z) : list Z := seqZ a (b - a).

(** [int(v)].  [None] is Python's [None] (an attribute without a value),
    for which [int] raises [TypeError].  A string is stripped of white
    space and read as an optional sign followed by decimal digits, single
    underscores being allowed between digits; anything else raises
    [ValueError].  Only the ASCII digits are modelled as decimal digits
    (Python reads every Unicode decimal digit), the white space stripped is
    that of [str.strip] (Python's [int] does not strip U+001C to U+001F),
    and there is no limit on the number of digits (Python rejects more
    than 4300). *)
Definition digit (c : N) : option Z :=
  if between 48 57 c then Some (Z.of_N (c - 48)) else None.

Fixpoint int_digits (acc : Z) (after_digit : bool) (s : str) : option Z :=
  match s with
  | [] => if after_digit then Some acc else None
  | c :: s' =>
      match digit c with
      | Some d => int_digits (10 * acc + d) true s'
      | None => if (c =? 95) && after_digit then int_digits acc false s'
                else None
      end
  end.

Definition int_literal (s : str) : option Z :=
  match s with
  | c :: ds =>
      if c =? 43 then int_digits 0 false ds
      else if c =? 45 then Z.opp <$> int_digits 0 false ds
      else int_digits 0 false s
  | [] => None
  end.

Definition int (v : option str) : res Z :=
  match v with
  | None => Raises TypeError
  | Some s => match int_literal (strip s) with
              | Some z => Returns z
              | None => Raises ValueError
              end
  end.

(** ** [html.parser.HTMLParser]

    [HTMLParser.feed] is library code; [TableParser] only overrides three
    handlers.  The tokenizer below follows CPython's [goahead],
    [parse_starttag] and [parse_endtag] on markup made of start tags (with
    quoted, bare or missing attribute values), end tags, comments,
    declarations and text.  Character references and the raw-text mode of
    [script] and [style] are not modelled; a comment ends at [-->] only
    (CPython also accepts [-- >]); and a marked section ([<![...]) is
    skipped like a declaration, where CPython 3.11 raises [AssertionError]
    on an unknown one.  The tokenizer here never raises: the properties
    below that speak of exceptions either concern the handlers and the
    code after them, or name [feed] as the origin of the exception. *)

Inductive event :=
| StartTag (tag : str) (attrs : list (str * option str))
| EndTag (tag : str)
| Data (data : str).

(** Longest prefix whose characters satisfy [p], and the rest. *)
Fixpoint span (p : N → bool) (s : str) : str * str :=
  match s with
  | c :: s' =>
      if p c then let '(a, b) := span p s' in (c :: a, b) else ([], s)
  | [] => ([], [])
  end.

(** The text that follows the first occurrence of [p]. *)
Fixpoint after (p s : str) : option str :=
  if startswith p s then Some (drop (length p) s)
  else match s with
       | [] => None
       | _ :: s' => after p s'
       end.

Definition is_alpha (c : N) : bool := between 65 90 c || between 97 122 c.

(** [[^\t\n\r\f />\x00]] *)
Definition tag_char (c : N) : bool :=
  negb ((c =? 9) || (c =? 10) || (c =? 13) || (c =? 12) || (c =? 32)
        || (c =? 47) || (c =? 62) || (c =? 0)).

(** [[-.a-zA-Z0-9:_]] *)
Definition strict_name_char (c : N) : bool :=
  is_alpha c || between 48 57 c || (c =? 45) || (c =? 46) || (c =? 58)
  || (c =? 95).

(** [[^\s/=>]] *)
Definition attr_name_char (c : N) : bool :=
  negb (isspace c || (c =? 47) || (c =? 61) || (c =? 62)).

(** [[^>\s]] *)
Definition bare_value_char (c : N) : bool := negb (isspace c || (c =? 62)).

Definition starts_alpha (s : str) : bool :=
  match s with c :: _ => is_alpha c | [] => false end.

Definition skip_space (s : str) : str := snd (span isspace s).

(** The attributes of a start tag, up to and including its [>] or [/>].
    [None]: the tag is not closed in the text fed so far. *)
Fixpoint parse_attrs (fuel : nat) (s : str) (attrs : list (str * option str))
  : option (list (str * option str) * bool * str) :=
  match fuel with
  | O => None
  | S fuel =>
      match skip_space s with
      | [] => None
      | c :: s1 =>
          if c =? 62 then Some (attrs, false, s1)
          else if c =? 47 then
            if startswith [62] s1 then Some (attrs, true, drop 1 s1)
            else parse_attrs fuel s1 attrs
          else
            let '(name, s2) := span attr_name_char s1 in
            let name := lower (c :: name) in
            let s3 := skip_space s2 in
            if startswith [61] s3 then
              match skip_space (snd (span (N.eqb 61) s3)) with
              | q :: s5 =>
                  if (q =? 34) || (q =? 39) then
                    let '(v, s6) := span (fun c => negb (c =? q)) s5 in
                    match s6 with
                    | _ :: s7 => parse_attrs fuel s7 (attrs ++ [(name, Some v)])
                    | [] => None
                    end
                  else
                    let '(v, s6) := span bare_value_char (q :: s5) in
                    parse_attrs fuel s6 (attrs ++ [(name, Some v)])
              | [] => None
              end
            else parse_attrs fuel s3 (attrs ++ [(name, None)])
      end
  end.

(** [parse_starttag] on the text after [<]; [<x/>] calls
    [handle_startendtag], that is [handle_starttag] then [handle_endtag]. *)
Definition parse_starttag (s : str) : option (list event * str) :=
  let '(name, s1) := span tag_char s in
  let tag := lower name in
  '(attrs, selfclosing, rest) ← parse_attrs (S (length s1)) s1 [];
  Some (StartTag tag attrs :: (if selfclosing : bool then [EndTag tag] else []),
        rest).

(** [parse_endtag] on the text after [</]. *)
Definition parse_endtag (s : str) : option (list event * str) :=
  match after [62] s with
  | None => None
  | Some bogus_rest =>
      let '(name, s2) := span strict_name_char (skip_space s) in
      let s3 := skip_space s2 in
      if starts_alpha name && startswith [62] s3 then
        Some ([EndTag (lower name)], drop 1 s3)
      else
        let '(name, s2) := span tag_char s in
        if starts_alpha name then
          rest ← after [62] s2; Some ([EndTag (lower name)], rest)
        else if startswith [62] s then Some ([], drop 1 s)
        else Some ([], bogus_rest)
  end.

(** The events of [feed(rawdata)] on a fresh parser, in order.  Scanning
    stops at a construct that the text does not complete. *)
Fixpoint goahead (fuel : nat) (rawdata : str) : list event :=
  match fuel with
  | O => []
  | S fuel =>
      match rawdata with
      | [] => []
      | c :: rest =>
          if c =? 60 then
            if starts_alpha rest then
              match parse_starttag rest with
              | Some (evs, rest') => evs ++ goahead fuel rest'
              | None => []
              end
            else if startswith (u "/") rest then
              match parse_endtag (drop 1 rest) with
              | Some (evs, rest') => evs ++ goahead fuel rest'
              | None => []
              end
            else if startswith (u "!--") rest then
              match after (u "-->") (drop 3 rest) with
              | Some rest' => goahead fuel rest'
              | None => []
              end
            else if startswith (u "?") rest || startswith (u "!") rest then
              match after (u ">") rest with
              | Some rest' => goahead fuel rest'
              | None => []
              end
            else
              match rest with
              | [] => []
              | _ => Data [60] :: goahead fuel rest
              end
          else
            let '(text, rest') := span (fun c => negb (c =? 60)) rawdata in
            Data text :: goahead fuel rest'
      end
  end.

Definition events (rawdata : str) : list event :=
  goahead (length rawdata) rawdata.

(** ** Statements that dify.py and main.py share

    [_table_to_markdown] (dify.py, lines 146-220) and the three functions
    [_build_grid_with_spans], [_flatten_header_layers] and [_normalize_text]
    of main.py (lines 46-92, 119-151, 179) consist of the same statements;
    they are written once here and used by both modules. *)

Local Close Scope N_scope.

(** [s.replace("\n", "<br>")] *)
Definition _normalize_text (s : str) : str := replace 10 (u "<br>") s.

(** [while (r_idx, c_idx) in carry:
       row_vals.append(carry.pop((r_idx, c_idx))); c_idx += 1]
    Every turn removes a key, so [size carry] turns are enough. *)
Fixpoint place_reserved (fuel : nat) (r_idx c_idx : Z)
    (carry : gmap (Z * Z) str) (row_vals : list str)
  : res (Z * gmap (Z * Z) str * list str) :=
  match carry !! (r_idx, c_idx) with
  | None => mret (c_idx, carry, row_vals)
  | Some v =>
      match fuel with
      | O => Diverges
      | S fuel =>
          place_reserved fuel r_idx (c_idx + 1)%Z
            (delete (r_idx, c_idx) carry) (row_vals ++ [v])
      end
  end.

(** [for dr in range(1, rs): for dc in range(cs):
       carry[(r_idx + dr, left + dc)] = text if dc == 0 else ""] *)
Definition reserve (carry : gmap (Z * Z) str) (r_idx left rs cs : Z)
    (text : str) : gmap (Z * Z) str :=
  foldl (fun carry dr =>
           foldl (fun carry dc =>
                    <[(r_idx + dr, left + dc)%Z :=
                        if (dc =? 0)%Z then text else []]> carry)
                 carry (range 0 cs))
        carry (range 1 rs).

(** One turn of [for cell in ...], once [text], [rs] and [cs] are known
    (dify.py lines 164-178, main.py lines 66-83). *)
Definition place (r_idx : Z) (st : Z * gmap (Z * Z) str * list str)
    (text : str) (rs cs : Z) : res (Z * gmap (Z * Z) str * list str) :=
  let '(c_idx, carry, row_vals) := st in
  let row_vals := row_vals ++ [text] ++ replicate (Z.to_nat (cs - 1)) [] in
  let carry :=
    if (1 <? rs)%Z then
      reserve carry r_idx (Z.of_nat (length row_vals) - cs)%Z rs cs text
    else carry in
  let c_idx := (c_idx + cs)%Z in
  place_reserved (size carry) r_idx c_idx carry row_vals.

(** [row += [""] * (max_cols - len(row))] *)
Definition pad (max_cols : nat) (r : list str) : list str :=
  r ++ replicate (max_cols - length r) [].

Section expand.
(** [C] is what a row holds: a cell dict in dify.py, a [td]/[th] element
    in main.py; [place_cell] is the body of [for cell in ...]. *)
Context {C : Type}.
Variable place_cell :
  Z → Z * gmap (Z * Z) str * list str → C
  → res (Z * gmap (Z * Z) str * list str).

(** The values of one row. *)
Definition expand_row (r_idx : Z) (carry : gmap (Z * Z) str) (r : list C)
  : res (gmap (Z * Z) str * list str) :=
  st ← place_reserved (size carry) r_idx 0%Z carry [];
  '(_, carry, row_vals) ← foldM (place_cell r_idx) st r;
  mret (carry, row_vals).

(** One turn of [for r_idx, row in enumerate(...)]. *)
Definition expand_step (st : list (list str) * gmap (Z * Z) str * nat)
    (ir : nat * list C) : res (list (list str) * gmap (Z * Z) str * nat) :=
  let '(grid, carry, max_cols) := st in
  '(carry, row_vals) ← expand_row (Z.of_nat ir.1) carry ir.2;
  mret (grid ++ [row_vals], carry, Nat.max max_cols (length row_vals)).

(** The rows as placed, before they are padded, and [max_cols]. *)
Definition expand_rows (rows : list (list C))
  : res (list (list str) * nat) :=
  '(grid, _, max_cols) ← foldM expand_step ([], ∅, O) (imap pair rows);
  mret (grid, max_cols).

(** The grid, every row padded to [max_cols], and [max_cols]. *)
Definition expand (rows : list (list C)) : res (list (list str) * nat) :=
  '(grid, max_cols) ← expand_rows rows;
  mret (map (pad max_cols) grid, max_cols).
End expand.

(** The left-to-right pass that fills [propagated]. *)
Definition propagate_column (layer : list str) (st : list str * str)
    (c : nat) : res (list str * str) :=
  let '(propagated, current) := st in
  x ← index layer c;
  let current := if truthy (strip x) then strip x else current in
  mret (<[c := current]> propagated, current).

Definition propagate (cols : nat) (layer : list str) : res (list str) :=
  fst <$> foldM (propagate_column layer) (replicate cols [], [])
                (seq 0 cols).

(** The pass that joins one layer into [headers]. *)
Definition merge_column (propagated : list str)
    (st : list str * list (option str)) (c : nat)
  : res (list str * list (option str)) :=
  let '(headers, prev_seg) := st in
  seg ← index propagated c;
  if negb (truthy seg) then mret st
  else
    p ← index prev_seg c;
    if decide (p = Some seg) then mret st
    else
      h ← index headers c;
      mret (<[c := if truthy h then h ++ u " > " ++ seg else seg]> headers,
            <[c := Some seg]> prev_seg).

(** One turn of [for r in range(...)]. *)
Definition merge_layer (cols : nat) (grid : list (list str))
    (st : list str * list (option str)) (r : nat)
  : res (list str * list (option str)) :=
  layer ← index grid r;
  propagated ← propagate cols layer;
  foldM (merge_column propagated) st (seq 0 cols).

(** All header layers, top to bottom: [headers] and [prev_seg]. *)
Definition merge_layers (grid : list (list str)) (layers cols : nat)
  : res (list str * list (option str)) :=
  foldM (merge_layer cols grid)
        (replicate cols [], replicate cols None)
        (seq 0 (Nat.min layers (length grid))).

(** [if not headers[i]: headers[i] = f"col_{i+1}"] *)
Definition name_column (headers : list str) (i : nat) : res (list str) :=
  h ← index headers i;
  mret (if truthy h then headers
        else <[i := u "col_" ++ str_of_nat (i + 1)]> headers).

(** The flattened header row. *)
Definition flatten (grid : list (list str)) (layers cols : nat)
  : res (list str) :=
  '(headers, _) ← merge_layers grid layers cols;
  foldM name_column headers (seq 0 cols).

(** ["| " + " | ".join(cells) + " |"] *)
Definition line (cells : list str) : str :=
  u "| " ++ join (u " | ") cells ++ u " |".

(** ** dify.py *)

Module Dify.

(** The dict built for a cell at line 103. *)
Record cell := Cell {
  text : str;
  rowspan : Z;
  colspan : Z;
  is_header : bool
}.

Abbreviation row := (list cell).
Abbreviation table := (list row).

(** *** [TableParser] (lines 85-136) *)

Record TableParser := Parser {
  tables : list table;
  _cur_table : option table;
  _cur_row : option row;
  _cur_cell : option cell;
  _cell_text : str
}.

(** [__init__] *)
Definition init : TableParser :=
  {| tables := []; _cur_table := None; _cur_row := None; _cur_cell := None;
     _cell_text := [] |}.

Definition set_rowspan (c : cell) (n : Z) : cell :=
  {| text := text c; rowspan := n; colspan := colspan c;
     is_header := is_header c |}.

Definition set_colspan (c : cell) (n : Z) : cell :=
  {| text := text c; rowspan := rowspan c; colspan := n;
     is_header := is_header c |}.

Definition set_text (c : cell) (t : str) : cell :=
  {| text := t; rowspan := rowspan c; colspan := colspan c;
     is_header := is_header c |}.

(** One turn of the loop [for k, v in attrs] (lines 104-115). *)
Definition span_attr (c : cell) (kv : str * option str) : res cell :=
  let k := lower kv.1 in
  if decide (k = u "rowspan") then
    try_except (n ← int kv.2; mret (set_rowspan c n)) (mret c)
  else if decide (k = u "colspan") then
    try_except (n ← int kv.2; mret (set_colspan c n)) (mret c)
  else mret c.

Definition is_td_th (t : str) : bool :=
  bool_decide (t = u "td") || bool_decide (t = u "th").

Definition handle_starttag (self : TableParser) (tag : str)
    (attrs : list (str * option str)) : res TableParser :=
  let t := lower tag in
  if decide (t = u "table") then
    mret {| tables := tables self; _cur_table := Some [];
            _cur_row := _cur_row self; _cur_cell := _cur_cell self;
            _cell_text := _cell_text self |}
  else if decide (t = u "tr") then
    match _cur_table self with
    | Some _ =>
        mret {| tables := tables self; _cur_table := _cur_table self;
                _cur_row := Some []; _cur_cell := _cur_cell self;
                _cell_text := _cell_text self |}
    | None => mret self
    end
  else if is_td_th t then
    match _cur_row self with
    | Some _ =>
        let c0 := {| text := []; rowspan := 1; colspan := 1;
                     is_header := bool_decide (t = u "th") |} in
        c ← foldM span_attr c0 attrs;
        mret {| tables := tables self; _cur_table := _cur_table self;
                _cur_row := _cur_row self; _cur_cell := Some c;
                _cell_text := [] |}
    | None => mret self
    end
  else mret self.

Definition handle_endtag (self : TableParser) (tag : str) : res TableParser :=
  let t := lower tag in
  if is_td_th t then
    match _cur_cell self with
    | Some c =>
        let c := set_text c (strip (_cell_text self)) in
        match _cur_row self with
        | Some r =>
            mret {| tables := tables self; _cur_table := _cur_table self;
                    _cur_row := Some (r ++ [c]); _cur_cell := None;
                    _cell_text := _cell_text self |}
        | None => Raises AttributeError
        end
    | None => mret self
    end
  else if decide (t = u "tr") then
    let cur_table :=
      match _cur_table self, _cur_row self with
      | Some tb, Some r => Some (tb ++ [r])
      | tb, _ => tb
      end in
    mret {| tables := tables self; _cur_table := cur_table; _cur_row := None;
            _cur_cell := _cur_cell self; _cell_text := _cell_text self |}
  else if decide (t = u "table") then
    let tbs :=
      match _cur_table self with
      | Some tb => tables self ++ [tb]
      | None => tables self
      end in
    mret {| tables := tbs; _cur_table := None; _cur_row := _cur_row self;
            _cur_cell := _cur_cell self; _cell_text := _cell_text self |}
  else mret self.

Definition handle_data (self : TableParser) (data : str) : res TableParser :=
  match _cur_cell self with
  | Some _ =>
      mret {| tables := tables self; _cur_table := _cur_table self;
              _cur_row := _cur_row self; _cur_cell := _cur_cell self;
              _cell_text := _cell_text self ++ data |}
  | None => mret self
  end.

Definition handle (self : TableParser) (e : event) : res TableParser :=
  match e with
  | StartTag tag attrs => handle_starttag self tag attrs
  | EndTag tag => handle_endtag self tag
  | Data data => handle_data self data
  end.

(** [parser.feed(rawdata)] *)
Definition feed (self : TableParser) (rawdata : str) : res TableParser :=
  foldM handle self (events rawdata).

(** *** [_table_to_markdown] (lines 140-231) *)

(** Lines 160-178. *)
Definition place_cell (r_idx : Z) (st : Z * gmap (Z * Z) str * list str)
    (c : cell) : res (Z * gmap (Z * Z) str * list str) :=
  place r_idx st (_normalize_text (text c)) (rowspan c) (colspan c).

(** Lines 188-193. *)
Fixpoint header_layers (t : table) : nat :=
  match t with
  | r :: t' => if existsb is_header r then S (header_layers t') else O
  | [] => O
  end.

(** Lines 225-231. *)
Definition render (headers : list str) (max_cols : nat)
    (body : list (list str)) : str :=
  join nl ([line headers; line (replicate max_cols (u ":---"))]
           ++ map (fun r => line (take max_cols r)) body).

Definition _table_to_markdown (t : table) : res str :=
  '(grid, max_cols) ← expand place_cell t;
  let layers := header_layers t in
  headers ← flatten grid layers max_cols;
  let body := drop layers grid in
  mret (render headers max_cols body).

(** *** [table_html_to_markdown] (lines 71-81) *)

Definition table_html_to_markdown (table_html : str) : res str :=
  parser ← feed init table_html;
  match tables parser with
  | [] => mret table_html
  | t :: _ => _table_to_markdown t
  end.

(** *** [replace_tables_in_place] (lines 21-67) *)

Definition end_tag : str := u "</table>".

(** The loop [while True] of lines 33-65; [fuel] bounds its turns. *)
Fixpoint scan (fuel : nat) (html lower : str) (pos : nat)
    (out_parts : list str) : res (list str) :=
  match fuel with
  | O => Diverges
  | S fuel =>
      match find (u "<table") lower pos with
      | None => mret (out_parts ++ [drop pos html])
      | Some start =>
          let out_parts := out_parts ++ [slice html pos start] in
          match find (u ">") lower start with
          | None => mret (out_parts ++ [drop start html])
          | Some gt =>
              match find end_tag lower (gt + 1) with
              | None => mret (out_parts ++ [drop start html])
              | Some end_ =>
                  let table_html :=
                    slice html start (end_ + length end_tag) in
                  md ← table_html_to_markdown table_html;
                  scan fuel html lower (end_ + length end_tag)
                       (out_parts ++ [md])
              end
          end
      end
  end.

(** [html] is [None] for Python's [None]. *)
Definition replace_tables_in_place (html : option str) : res str :=
  match html with
  | None => mret []
  | Some html =>
      if negb (truthy html) then mret []
      else
        out_parts ← scan (S (length (lower html))) html (lower html) 0 [];
        mret (concat out_parts)
  end.

(** *** [main] (lines 10-17)

    The values of [inputs] and of the keyword arguments are [None] or a
    text; [context] is not read. *)
Definition main (inputs : option (gmap str (option str)))
    (kwargs : gmap str (option str)) : res (gmap str str) :=
  let inputs :=
    match inputs with
    | Some d => if decide (d = ∅) then ∅ else d
    | None => ∅
    end in
  let html := default None (inputs !! u "html") in
  let html :=
    match html with
    | None => default (Some []) (kwargs !! u "html")
    | Some _ => html
    end in
  markdown_embedded ← replace_tables_in_place html;
  mret {[ u "markdown" := markdown_embedded ]}.

End Dify.

(** ** main.py

    [BeautifulSoup(html, "html.parser")] is library code.  Its tree is
    modelled by [node]; [soup] builds it from the parser events the way the
    tree builder does: a start tag opens an element, an end tag closes the
    nearest open element of that name (and those opened inside it), text
    between tags is one string, a void element is closed at once, and an
    element's attributes form a dict.  Comments and declarations leave no
    node (BeautifulSoup keeps them as strings of their own, which separate
    the text around them), and every text is given a tree (BeautifulSoup
    raises [ParserRejectedMarkup] where the parser fails). *)

Module Main.

#[warnings="-register-all"]
Inductive node :=
| Text (s : str)
| Tag (name : str) (attrs : gmap str str) (children : list node).

(** An element that is still open: its name, attributes and the children
    it has so far. *)
Definition open_tag : Type := str * gmap str str * list node.

Definition append_node (n : node) (ch : list node) : list node :=
  match n, reverse ch with
  | Text b, Text a :: before => reverse before ++ [Text (a ++ b)]
  | _, _ => ch ++ [n]
  end.

Definition add_child (n : node) (stack : list open_tag) (top : list node)
  : list open_tag * list node :=
  match stack with
  | (name, attrs, ch) :: below => ((name, attrs, append_node n ch) :: below, top)
  | [] => ([], append_node n top)
  end.

Definition is_open (name : str) (stack : list open_tag) : bool :=
  existsb (fun o => bool_decide (o.1.1 = name)) stack.

Definition attach (child : option node) (ch : list node) : list node :=
  match child with
  | Some c => append_node c ch
  | None => ch
  end.

(** [_popToTag]: close the open elements down to the nearest one called
    [name]; [child] is the element just closed, not yet attached. *)
Fixpoint pop_to (name : str) (child : option node) (stack : list open_tag)
    (top : list node) : list open_tag * list node :=
  match stack with
  | (n, attrs, ch) :: below =>
      let me := Tag n attrs (attach child ch) in
      if decide (n = name) then add_child me below top
      else pop_to name (Some me) below top
  | [] => ([], attach child top)
  end.

Definition void_elements : list str :=
  [u "area"; u "base"; u "br"; u "col"; u "embed"; u "hr"; u "img";
   u "input"; u "keygen"; u "link"; u "menuitem"; u "meta"; u "param";
   u "source"; u "track"; u "wbr"; u "basefont"; u "bgsound"; u "command";
   u "frame"; u "image"; u "isindex"; u "nextid"; u "spacer"].

Definition attr_dict (attrs : list (str * option str)) : gmap str str :=
  foldl (fun d kv => <[kv.1 := default [] kv.2]> d) ∅ attrs.

Definition build_step (st : list open_tag * list node) (e : event)
  : list open_tag * list node :=
  let '(stack, top) := st in
  match e with
  | StartTag tag attrs =>
      if bool_decide (tag ∈ void_elements) then
        add_child (Tag tag (attr_dict attrs) []) stack top
      else ((tag, attr_dict attrs, []) :: stack, top)
  | EndTag tag => if is_open tag stack then pop_to tag None stack top else st
  | Data data => add_child (Text data) stack top
  end.

(** At the end of the document every open element is closed. *)
Fixpoint close_all (child : option node) (stack : list open_tag)
    (top : list node) : list node :=
  match stack with
  | (n, attrs, ch) :: below =>
      close_all (Some (Tag n attrs (attach child ch))) below top
  | [] => attach child top
  end.

(** The children of the document. *)
Definition soup (html : str) : list node :=
  let st := foldl build_step ([], []) (events html) in
  close_all None st.1 st.2.

(** Elements and strings below a node, in document order. *)
Fixpoint descendants (n : node) : list node :=
  match n with
  | Text _ => []
  | Tag _ _ ch =>
      (fix go (l : list node) : list node :=
         match l with
         | [] => []
         | c :: l' => c :: descendants c ++ go l'
         end) ch
  end.

Definition children (n : node) : list node :=
  match n with
  | Text _ => []
  | Tag _ _ ch => ch
  end.

Definition named (names : list str) (n : node) : bool :=
  match n with
  | Text _ => false
  | Tag name _ _ => bool_decide (name ∈ names)
  end.

(** [tag.find_all(names)] and [tag.find_all(names, recursive=False)] *)
Definition find_all (names : list str) (recursive : bool) (n : node)
  : list node :=
  filter (fun c => named names c = true)
         (if recursive then descendants n else children n).

(** [soup.find("table")] *)
Definition find_table (doc : list node) : option node :=
  head (filter (fun c => named [u "table"] c = true)
               (concat (map (fun n => n :: descendants n) doc))).

(** [tag.get_text(sep, strip=True)] *)
Definition get_text (sep : str) (n : node) : str :=
  join sep
    (omap (fun d => match d with
                    | Text t => if truthy (strip t) then Some (strip t)
                                else None
                    | Tag _ _ _ => None
                    end)
          (descendants n)).

(** [int(cell.get(key, 1) or 1)] *)
Definition span_value (key : str) (cell : node) : res Z :=
  match cell with
  | Tag _ attrs _ =>
      match attrs !! key with
      | Some v => if truthy v then int (Some v) else mret 1%Z
      | None => mret 1%Z
      end
  | Text _ => mret 1%Z
  end.

(** Lines 60-83. *)
Definition place_cell (r_idx : Z) (st : Z * gmap (Z * Z) str * list str)
    (cell : node) : res (Z * gmap (Z * Z) str * list str) :=
  let text := _normalize_text (get_text nl cell) in
  rs ← span_value (u "rowspan") cell;
  cs ← span_value (u "colspan") cell;
  place r_idx st text rs cs.

Definition cells (tr : node) : list node :=
  find_all [u "td"; u "th"] false tr.

Definition _build_grid_with_spans (table : node) : res (list (list str)) :=
  let rows := find_all [u "tr"] true table in
  fst <$> expand place_cell (map cells rows).

Fixpoint count_leading (p : node → bool) (l : list node) : nat :=
  match l with
  | x :: l' => if p x then S (count_leading p l') else O
  | [] => O
  end.

Definition _count_header_layers (table : node) : nat :=
  count_leading (fun tr => existsb (named [u "th"]) (cells tr))
                (find_all [u "tr"] false table).

Definition _flatten_header_layers (grid : list (list str))
    (header_layers : nat) : res (list str) :=
  match grid with
  | [] => mret []
  | first :: _ => flatten grid header_layers (length first)
  end.

Definition _to_markdown (headers : list str) (body_rows : list (list str))
  : str :=
  let sep := u ":---" in
  join nl
    ([line headers; line (replicate (length headers) sep)]
     ++ map (fun r =>
               line (take (length headers) r
                     ++ replicate (Nat.max 0 (length headers - length r)) []))
            body_rows).

Definition html_table_to_flat_markdown (html : str) : res str :=
  match find_table (soup html) with
  | None => mret []
  | Some table =>
      grid ← _build_grid_with_spans table;
      let header_rows := _count_header_layers table in
      headers ← _flatten_header_layers grid header_rows;
      let body :=
        if (header_rows <? length grid)%nat then drop header_rows grid
        else [] in
      mret (_to_markdown headers body)
  end.

End Main.

(** * Vocabulary of the properties *)

Import Dify.

(** What one attribute says about the span called [key]. *)
Definition parsed_span (key : str) (kv : str * option str) : option Z :=
  if decide (lower kv.1 = key) then
    match int kv.2 with
    | Returns n => Some n
    | _ => None
    end
  else None.

(** The span a start tag declares: the last value that [int] accepts,
    and 1 when there is none. *)
Definition declared_span (key : str) (attrs : list (str * option str)) : Z :=
  default 1%Z (last (omap (parsed_span key) attrs)).

(** The propagated row of a layer as a function: every cell holds the
    last non-blank text met so far, [cur] being the one met before. *)
Fixpoint propagated_row (cur : str) (layer : list str) : list str :=
  match layer with
  | [] => []
  | x :: l =>
      let cur' := if truthy (strip x) then strip x else cur in
      cur' :: propagated_row cur' l
  end.

(** What one layer does to one column: [h] is the header joined so far,
    [p] the segment joined last, [seg] the propagated value. *)
Definition join_segment (h : str) (p : option str) (seg : str)
  : str * option str :=
  if truthy seg then
    if decide (p = Some seg) then (h, p)
    else (if truthy h then h ++ u " > " ++ seg else seg, Some seg)
  else (h, p).

(** Every row of [grid] has [cols] cells. *)
Definition rectangular (cols : nat) (grid : list (list str)) : Prop :=
  Forall (fun r => length r = cols) grid.

(** The value a column has in the propagated row of a layer. *)
Definition segment (grid : list (list str)) (cols r c : nat) : option str :=
  match grid !! r with
  | Some layer =>
      match propagate cols layer with
      | Returns propagated => propagated !! c
      | _ => None
      end
  | None => None
  end.

(** A stretch of the input as the loop treats it: copied, or cut out as a
    region and replaced by [md]. *)
Inductive piece :=
| Kept (text : str)
| Replaced (region md : str).

Definition source (p : piece) : str :=
  match p with
  | Kept text => text
  | Replaced region _ => region
  end.

Definition output (p : piece) : str :=
  match p with
  | Kept text => text
  | Replaced _ md => md
  end.

(** What the loop knows of a replaced region: the offsets of [lw] at which
    it found [<table] and [</table>], with which it cut [html], and that
    [table_html_to_markdown] returned [md] for it. *)
Definition cut_at (html lw : str) (p : piece) : Prop :=
  match p with
  | Kept _ => True
  | Replaced region md =>
      table_html_to_markdown region = Returns md
      ∧ ∃ start end_,
          region = slice html start (end_ + 8)
          ∧ start < end_
          ∧ startswith (u "<table") (drop start lw) = true
          ∧ startswith end_tag (drop end_ lw) = true
  end.

(** A replaced region that is a table: it begins with [<table] and ends
    with [</table>], in any mix of cases. *)
Definition table_region (p : piece) : Prop :=
  match p with
  | Kept _ => True
  | Replaced region md =>
      table_html_to_markdown region = Returns md
      ∧ startswith (u "<table") (lower region) = true
      ∧ ∃ mid, lower region = mid ++ end_tag
  end.

(** [str.lower] of one code point other than U+0130. *)
Definition lower_plain (c : N) : N :=
  if between 65 90 c then (c + 32)%N else c.

(** The loop resumed at [pos], with all the fuel it can need. *)
Definition resume (html : str) (pos : nat) : res (list str) :=
  scan (S (length (lower html))) html (lower html) pos [].

(** The double quote. *)
Definition dq : str := [34%N].

(** The table of the end-to-end example. *)
Definition example_table : str :=
  u "<table><tr><th rowspan=" ++ dq ++ u "2" ++ dq ++ u ">Name</th>"
  ++ u "<th colspan=" ++ dq ++ u "2" ++ dq ++ u ">Info</th></tr>"
  ++ u "<tr><th>Age</th><th>City</th></tr>"
  ++ u "<tr><td>Tom</td><td>30</td><td>NY</td></tr></table>".

(** The table that the example expects. *)
Definition example_markdown : str :=
  u "| Name | Info > Age | Info > City |" ++ nl
  ++ u "| :--- | :--- | :--- |" ++ nl
  ++ u "| Tom | 30 | NY |".

(** A table whose only cell holds U+0130, and its rendering. *)
Definition dotted_table : str :=
  u "<table><tr><td>" ++ [304%N] ++ u "</td></tr></table>".

Definition dotted_markdown : str :=
  u "| col_1 |" ++ nl ++ u "| :--- |" ++ nl ++ u "| " ++ [304%N] ++ u " |".

(** A text with no white space at either end. *)
Definition trimmed (s : str) : Prop :=
  (∀ c, head s = Some c → isspace c = false)
  ∧ (∀ c, last s = Some c → isspace c = false).

(** What [handle] keeps true of the cells a parser holds. *)
Definition cells_trimmed (self : TableParser) : Prop :=
  Forall (Forall (Forall (fun c => trimmed (text c)))) (tables self)
  ∧ (∀ tb, _cur_table self = Some tb →
       Forall (Forall (fun c => trimmed (text c))) tb)
  ∧ (∀ r, _cur_row self = Some r → Forall (fun c => trimmed (text c)) r).

(** The values a cell puts in its row: its text, then an empty string for
    every further column it spans. *)
Definition cell_values (c : cell) : list str :=
  _normalize_text (text c) :: replicate (Z.to_nat (colspan c - 1)) [].

Definition row_values (r : row) : list str := concat (cell_values <$> r).

(** A text without line break, and the number of line breaks of a text. *)
Definition one_line (s : str) : Prop := Forall (fun c => c ≠ 10%N) s.

Definition newlines (s : str) : nat := length (filter (fun c => c = 10%N) s).

(** A region that the loop cuts out of [html]: [html[start:end + 8]] for
    offsets at which [lw] has [<table] and [</table>]. *)
Definition located (html lw region : str) : Prop :=
  ∃ start end_,
    region = slice html start (end_ + 8)
    ∧ start < end_
    ∧ startswith (u "<table") (drop start lw) = true
    ∧ startswith end_tag (drop end_ lw) = true.

(** A table with a span attribute that is not a number. *)
Definition unreadable_table : str :=
  u "<table><tr><td rowspan=x>1</td></tr></table>".

(** A table whose rows are wrapped in [thead] and [tbody]. *)
Definition wrapped_table : str :=
  u "<table><thead><tr><th>a</th></tr></thead>"
  ++ u "<tbody><tr><td>1</td></tr></tbody></table>".

Definition wrapped_markdown : str :=
  u "| col_1 |" ++ nl ++ u "| :--- |" ++ nl ++ u "| a |" ++ nl ++ u "| 1 |".

(** A span attribute that [int(cell.get(key, 1) or 1)] of main.py can
    read: the attribute is missing, or empty, or an integer literal. *)
Definition span_readable (key : str) (cell : Main.node) : bool :=
  match cell with
  | Main.Tag _ attrs _ =>
      match attrs !! key with
      | Some v => negb (truthy v)
                  || match int_literal (strip v) with
                     | Some _ => true
                     | None => false
                     end
      | None => true
      end
  | Main.Text _ => true
  end.

Definition spans_readable (cell : Main.node) : bool :=
  span_readable (u "rowspan") cell && span_readable (u "colspan") cell.

(** Every cell of every row that [_build_grid_with_spans] visits. *)
Definition table_readable (table : Main.node) : Prop :=
  Forall (fun tr => Forall (fun cell => spans_readable cell = true)
                           (Main.cells tr))
         (Main.find_all [u "tr"] true table).

(** [col_1], ..., [col_n] *)
Definition col_names (n : nat) : list str :=
  (fun i => u "col_" ++ str_of_nat (i + 1)) <$> seq 0 n.

(** The lines of a Markdown table: header, separator, one per body row. *)
Definition markdown_lines (headers : list str) (body : list (list str))
  : str :=
  join nl (line headers :: line (replicate (length headers) (u ":---"))
           :: (line <$> body)).

(** * Properties *)

(** ** The [res] monad *)

Lemma bind_Returns {A B} (a : A) (k : A → res B) :
  (Returns a ≫= k) = k a.
Proof. reflexivity. Qed.

Lemma bind_assoc {A B C} (m : res A) (f : A → res B) (g : B → res C) :
  ((m ≫= f) ≫= g) = (m ≫= fun a => f a ≫= g).
Proof. destruct m; reflexivity. Qed.

Lemma bind_ret {A} (m : res A) : (m ≫= fun a => Returns a) = m.
Proof. destruct m; reflexivity. Qed.

Lemma bind_inv {A B} (m : res A) (k : A → res B) (b : B) :
  (m ≫= k) = Returns b → ∃ a, m = Returns a ∧ k a = Returns b.
Proof. destruct m; [eauto | discriminate | discriminate]. Qed.

Lemma foldM_app {A B} (f : A → B → res A) (a : A) (l1 l2 : list B) :
  foldM f a (l1 ++ l2) = (foldM f a l1 ≫= fun a' => foldM f a' l2).
Proof.
  revert a. induction l1 as [|x l1 IH]; intros a; [reflexivity|].
  simpl. destruct (f a x) as [a'| |]; simpl; [apply IH | reflexivity..].
Qed.

(** A loop whose body keeps an invariant keeps it to the end. *)
Lemma foldM_invariant {A B} (P : A → Prop) (f : A → B → res A)
    (l : list B) (a a' : A) :
  (∀ a x a', P a → f a x = Returns a' → P a') →
  P a → foldM f a l = Returns a' → P a'.
Proof.
  intros Hf. revert a. induction l as [|x l IH]; intros a Ha; simpl.
  - intros [= <-]. exact Ha.
  - intros H. apply bind_inv in H as (a1 & H1 & H2). eauto.
Qed.

(** A loop whose body always returns, returns. *)
Lemma foldM_returns {A B} (P : A → Prop) (f : A → B → res A)
    (l : list B) (a : A) :
  (∀ a x, P a → ∃ a', f a x = Returns a' ∧ P a') →
  P a → ∃ a', foldM f a l = Returns a' ∧ P a'.
Proof.
  intros Hf. revert a. induction l as [|x l IH]; intros a Ha; simpl.
  - eauto.
  - destruct (Hf a x Ha) as (a1 & -> & Ha1). simpl. auto.
Qed.

(** ** [str.find] *)

Lemma startswith_app p t : startswith p (p ++ t) = true.
Proof.
  induction p as [|a p IH]; [reflexivity|]. simpl.
  rewrite N.eqb_refl. exact IH.
Qed.

Lemma startswith_inv p s :
  startswith p s = true → s = p ++ drop (length p) s.
Proof.
  revert s. induction p as [|a p IH]; intros [|b s]; simpl; try done.
  intros [Hab Hs]%andb_prop. apply N.eqb_eq in Hab as ->.
  f_equal. auto.
Qed.

Lemma startswith_length p s : startswith p s = true → length p ≤ length s.
Proof.
  intros H%startswith_inv. rewrite H, length_app. lia.
Qed.

Lemma find_at_Some p s i k :
  find_at p s i = Some k →
  i ≤ k ∧ k - i ≤ length s
  ∧ startswith p (drop (k - i) s) = true
  ∧ ∀ j, j < k - i → startswith p (drop j s) = false.
Proof.
  revert i. induction s as [|c s IH]; intros i; simpl.
  - destruct (startswith p []) eqn:E; [|discriminate].
    intros [= <-]. rewrite Nat.sub_diag. simpl. repeat split; [lia.. |done|].
    intros j Hj; lia.
  - destruct (startswith p (c :: s)) eqn:E.
    + intros [= <-]. rewrite Nat.sub_diag. simpl.
      repeat split; [lia..|done|]. intros j Hj; lia.
    + intros H. apply IH in H as (H1 & H2 & H3 & H4).
      replace (k - i) with (S (k - S i)) by lia. simpl.
      repeat split; [lia..|done|].
      intros [|j] Hj; [exact E|]. simpl. apply H4. lia.
Qed.

Lemma find_at_None p s i :
  find_at p s i = None → ∀ j, startswith p (drop j s) = false.
Proof.
  revert i. induction s as [|c s IH]; intros i; simpl.
  - destruct (startswith p []) eqn:E; [discriminate|].
    intros _ j. by rewrite drop_nil.
  - destruct (startswith p (c :: s)) eqn:E; [discriminate|].
    intros H [|j]; [exact E|]. simpl. eauto.
Qed.

Lemma find_Some p s pos k :
  find p s pos = Some k →
  pos ≤ k ∧ k + length p ≤ length s
  ∧ startswith p (drop k s) = true
  ∧ ∀ j, pos ≤ j → j < k → startswith p (drop j s) = false.
Proof.
  unfold find. destruct (pos <=? length s) eqn:E; [|discriminate].
  apply Nat.leb_le in E.
  intros (H1 & H2 & H3 & H4)%find_at_Some.
  rewrite drop_drop in H3. rewrite length_drop in H2.
  replace (pos + (k - pos)) with k in H3 by lia.
  pose proof (startswith_length _ _ H3) as H5. rewrite length_drop in H5.
  repeat split; [lia..|done|].
  intros j Hj1 Hj2. specialize (H4 (j - pos) ltac:(lia)).
  rewrite drop_drop in H4. by replace (pos + (j - pos)) with j in H4 by lia.
Qed.

Lemma find_None p s pos :
  find p s pos = None → p ≠ [] →
  ∀ j, pos ≤ j → startswith p (drop j s) = false.
Proof.
  unfold find. intros H Hp j Hj.
  destruct (pos <=? length s) eqn:E.
  - apply Nat.leb_le in E.
    pose proof (find_at_None _ _ _ H (j - pos)) as H1.
    rewrite drop_drop in H1. by replace (pos + (j - pos)) with j in H1 by lia.
  - apply Nat.leb_gt in E. rewrite drop_ge by lia.
    destruct p; done.
Qed.

(** The first occurrence is what [find] returns. *)
Lemma find_first p s pos k :
  pos ≤ k → startswith p (drop k s) = true → k ≤ length s →
  (∀ j, pos ≤ j → j < k → startswith p (drop j s) = false) →
  find p s pos = Some k.
Proof.
  intros Hpos Hk Hlen Hfirst.
  destruct (find p s pos) as [k'|] eqn:E.
  - apply find_Some in E as (E1 & E2 & E3 & E4). f_equal.
    destruct (Nat.lt_trichotomy k k') as [Hlt|[->|Hlt]]; [|done|].
    + specialize (E4 k Hpos Hlt). congruence.
    + specialize (Hfirst k' E1 Hlt). congruence.
  - unfold find in E. destruct (pos <=? length s) eqn:E'.
    + pose proof (find_at_None _ _ _ E (k - pos)) as H1.
      rewrite drop_drop in H1.
      replace (pos + (k - pos)) with k in H1 by lia. congruence.
    + apply Nat.leb_gt in E'. lia.
Qed.

(** ** Span attributes *)

Lemma int_cases v : (∃ n, int v = Returns n) ∨ (∃ e, int v = Raises e).
Proof.
  destruct v as [s|]; simpl; [|eauto].
  destruct (int_literal (strip s)); eauto.
Qed.

Lemma span_attr_spec c kv :
  span_attr c kv =
  Returns {| text := text c;
             rowspan := default (rowspan c) (parsed_span (u "rowspan") kv);
             colspan := default (colspan c) (parsed_span (u "colspan") kv);
             is_header := is_header c |}.
Proof.
  unfold span_attr, parsed_span.
  destruct (decide (lower kv.1 = u "rowspan")) as [E|E].
  - rewrite E. destruct (decide (u "rowspan" = u "colspan")) as [?|_]; [done|].
    destruct (int_cases kv.2) as [[z ->]|[e ->]]; by destruct c.
  - destruct (decide (lower kv.1 = u "colspan")) as [E'|E'].
    + destruct (int_cases kv.2) as [[z ->]|[e ->]]; by destruct c.
    + by destruct c.
Qed.

Lemma last_omap_cons {A B} (f : A → option B) (x : A) (l : list A) (d : B) :
  default d (last (omap f (x :: l)))
  = default (default d (f x)) (last (omap f l)).
Proof.
  simpl. change (list_omap A B f l) with (omap f l).
  destruct (f x) as [y|]; [|done].
  rewrite last_cons. by destruct (last (omap f l)).
Qed.

Lemma span_attrs_spec attrs c :
  foldM span_attr c attrs =
  Returns {| text := text c;
             rowspan := default (rowspan c)
                          (last (omap (parsed_span (u "rowspan")) attrs));
             colspan := default (colspan c)
                          (last (omap (parsed_span (u "colspan")) attrs));
             is_header := is_header c |}.
Proof.
  revert c. induction attrs as [|kv attrs IH]; intros c.
  - by destruct c.
  - cbn [foldM]. rewrite span_attr_spec, bind_Returns, IH. cbn [text rowspan colspan is_header].
    by rewrite !last_omap_cons.
Qed.

(** ** The grid *)

Lemma place_reserved_returns (fuel : nat) (r_idx c_idx : Z)
    (carry : gmap (Z * Z) str) (row_vals : list str) :
  size carry ≤ fuel →
  ∃ c' carry' row_vals',
    place_reserved fuel r_idx c_idx carry row_vals
    = Returns (c', carry', row_vals')
    ∧ carry' !! (r_idx, c') = None.
Proof.
  revert c_idx carry row_vals.
  induction fuel as [|fuel IH]; intros c_idx carry row_vals Hsize; simpl.
  - assert (carry = ∅) as -> by (apply map_size_empty_inv; lia).
    rewrite lookup_empty. eauto.
  - destruct (carry !! (r_idx, c_idx)) as [v|] eqn:E; [|eauto].
    apply IH. rewrite map_size_delete_Some by eauto. lia.
Qed.

Lemma place_returns r_idx st text rs cs :
  ∃ st', place r_idx st text rs cs = Returns st'.
Proof.
  destruct st as [[c_idx carry] row_vals]. unfold place.
  edestruct place_reserved_returns as (c' & carry' & rv' & -> & _); eauto.
Qed.

Lemma expand_row_returns r_idx carry (r : row) :
  ∃ out, expand_row place_cell r_idx carry r = Returns out.
Proof.
  unfold expand_row.
  destruct (place_reserved_returns (size carry) r_idx 0 carry [])
    as (c' & carry' & rv' & -> & _); [done|]. rewrite bind_Returns.
  destruct (foldM_returns (fun _ => True) (place_cell r_idx) r
              (c', carry', rv')) as ([[c1 carry1] rv1] & -> & _); [|done|].
  - intros st c _. unfold place_cell.
    destruct (place_returns r_idx st (_normalize_text (text c))
      (rowspan c) (colspan c)) as [st' ->]. eauto.
  - simpl. eauto.
Qed.

Lemma max_list_ge (l : list nat) n : n ∈ l → n ≤ max_list l.
Proof.
  induction 1; simpl; lia.
Qed.

Lemma padded_length (rows : list (list str)) :
  Forall (fun r => length r = max_list (length <$> rows))
         (pad (max_list (length <$> rows)) <$> rows).
Proof.
  apply Forall_fmap, Forall_forall. intros r Hr. unfold pad.
  assert (length r ≤ max_list (length <$> rows)).
  { apply max_list_ge, list_elem_of_fmap. eauto. }
  simpl. rewrite length_app, length_replicate. lia.
Qed.

Section expand_facts.
Context {C : Type}.
Variable place_cell :
  Z → Z * gmap (Z * Z) str * list str → C
  → res (Z * gmap (Z * Z) str * list str).

Lemma expand_step_spec grid carry max_cols ir st' :
  expand_step place_cell (grid, carry, max_cols) ir = Returns st' →
  ∃ row_vals, st'.1.1 = grid ++ [row_vals]
              ∧ st'.2 = Nat.max max_cols (length row_vals).
Proof.
  unfold expand_step. intros ([carry' rv] & H1 & H2)%bind_inv.
  injection H2 as <-. eauto.
Qed.

Lemma expand_loop_spec l grid carry max_cols st' :
  foldM (expand_step place_cell) (grid, carry, max_cols) l = Returns st' →
  ∃ rows, st'.1.1 = grid ++ rows ∧ length rows = length l
          ∧ st'.2 = Nat.max max_cols (max_list (length <$> rows)).
Proof.
  revert grid carry max_cols.
  induction l as [|ir l IH]; intros grid carry max_cols; simpl.
  - intros [= <-]. exists []. simpl. rewrite app_nil_r. split_and!; [done..|lia].
  - intros ([[g1 c1] m1] & H1 & H2)%bind_inv.
    apply expand_step_spec in H1 as (rv & Hg & Hm). simpl in Hg, Hm. subst.
    apply IH in H2 as (rows & -> & Hlen & ->).
    exists (rv :: rows). rewrite <-app_assoc. simpl.
    split_and!; [done|lia|symmetry; apply Nat.max_assoc].
Qed.

Lemma expand_rows_spec rows_in rows max_cols :
  expand_rows place_cell rows_in = Returns (rows, max_cols) →
  length rows = length rows_in ∧ max_cols = max_list (length <$> rows).
Proof.
  unfold expand_rows. intros ([[g c] m] & H1 & H2)%bind_inv.
  injection H2 as -> ->.
  apply expand_loop_spec in H1 as (rs & H & Hlen & Hm). simpl in *. subst.
  by rewrite length_imap in Hlen.
Qed.
(** What [expand] returns is rectangular. *)
Lemma expanded_grid_rectangular rows_in grid max_cols :
  expand place_cell rows_in = Returns (grid, max_cols) →
  Forall (fun r => length r = max_cols) grid.
Proof.
  unfold expand. intros ([rows m] & E & [= <- <-])%bind_inv.
  apply expand_rows_spec in E as [_ ->]. apply padded_length.
Qed.

End expand_facts.

Lemma expand_rows_returns (t : table) :
  ∃ rows max_cols, expand_rows place_cell t = Returns (rows, max_cols).
Proof.
  unfold expand_rows.
  destruct (foldM_returns (fun _ => True) (expand_step place_cell)
              (imap pair t) ([], ∅, 0)) as ([[g c] m] & -> & _); [|done|].
  - intros [[g c] m] ir _. unfold expand_step.
    destruct (expand_row_returns (Z.of_nat ir.1) c ir.2) as [[c' rv] ->].
    simpl. eauto.
  - simpl. eauto.
Qed.

(** ** Header flattening *)

Lemma foldM_seq_S {A} (f : A → nat → res A) (a : A) (n : nat) :
  foldM f a (seq 0 (S n)) = (foldM f a (seq 0 n) ≫= fun a' => f a' n).
Proof.
  rewrite seq_S, foldM_app. simpl.
  destruct (foldM f a (seq 0 n)) as [a'| |]; simpl; [apply bind_ret|done..].
Qed.

Lemma index_Some {A} (l : list A) (i : nat) (x : A) :
  l !! i = Some x → index l i = Returns x.
Proof. unfold index. by intros ->. Qed.

Lemma length_propagated_row cur layer :
  length (propagated_row cur layer) = length layer.
Proof.
  revert cur. induction layer as [|x l IH]; intros cur; simpl; [done|].
  by rewrite IH.
Qed.

Lemma propagated_row_snoc cur l x :
  propagated_row cur (l ++ [x])
  = propagated_row cur l
    ++ [if truthy (strip x) then strip x
        else default cur (last (propagated_row cur l))].
Proof.
  revert cur. induction l as [|y l IH]; intros cur; simpl; [done|].
  rewrite IH. do 3 f_equal. rewrite last_cons.
  by destruct (last (propagated_row _ l)).
Qed.

Lemma propagate_loop layer cols k :
  k ≤ cols → cols ≤ length layer →
  foldM (propagate_column layer) (replicate cols [], []) (seq 0 k)
  = Returns (propagated_row [] (take k layer) ++ replicate (cols - k) [],
             default [] (last (propagated_row [] (take k layer)))).
Proof.
  induction k as [|k IH]; intros Hk Hlen.
  - simpl. by rewrite Nat.sub_0_r.
  - rewrite foldM_seq_S, IH by lia. rewrite bind_Returns.
    destruct (lookup_lt_is_Some_2 layer k) as [x Hx]; [lia|].
    unfold propagate_column. rewrite (index_Some _ _ _ Hx), bind_Returns.
    rewrite (take_S_r _ _ _ Hx), propagated_row_snoc. f_equal. f_equal.
    + rewrite insert_app_r_alt
        by (rewrite length_propagated_row, length_take; lia).
      rewrite length_propagated_row, length_take.
      replace (k - k `min` length layer) with 0 by lia.
      replace (cols - k) with (S (cols - S k)) by lia. simpl.
      by rewrite <-app_assoc.
    + by rewrite last_snoc.
Qed.

(** [propagate] computes the propagated row. *)
Lemma propagate_spec layer cols :
  length layer = cols →
  propagate cols layer = Returns (propagated_row [] layer).
Proof.
  intros H. unfold propagate. rewrite propagate_loop by lia.
  simpl. rewrite take_ge by lia. rewrite Nat.sub_diag. simpl.
  by rewrite app_nil_r.
Qed.

(** A non-blank cell is its own propagated value. *)
Lemma propagated_row_own cur layer c x :
  layer !! c = Some x → truthy (strip x) = true →
  propagated_row cur layer !! c = Some (strip x).
Proof.
  revert cur c. induction layer as [|y l IH]; intros cur [|c]; simpl; try done.
  - by intros [= ->] ->.
  - eauto.
Qed.

(** Where every cell up to a column is blank, so is the propagated value. *)
Lemma propagated_row_blank layer c :
  c < length layer →
  (∀ j x, j ≤ c → layer !! j = Some x → truthy (strip x) = false) →
  propagated_row [] layer !! c = Some [].
Proof.
  revert c. induction layer as [|y l IH]; intros c Hc Hblank; simpl in *.
  - lia.
  - rewrite (Hblank 0 y) by (done || lia). destruct c as [|c]; [done|].
    simpl. apply IH; [lia|]. intros j x Hj Hx. apply (Hblank (S j)); [lia|done].
Qed.

Lemma merge_columns_loop propagated hs ps cols k :
  length hs = cols → length ps = cols → length propagated = cols →
  k ≤ cols →
  ∃ hs' ps',
    foldM (merge_column propagated) (hs, ps) (seq 0 k) = Returns (hs', ps')
    ∧ length hs' = cols ∧ length ps' = cols
    ∧ (∀ c h p seg, c < k →
         hs !! c = Some h → ps !! c = Some p → propagated !! c = Some seg →
         hs' !! c = Some (join_segment h p seg).1
         ∧ ps' !! c = Some (join_segment h p seg).2)
    ∧ (∀ c, k ≤ c → hs' !! c = hs !! c ∧ ps' !! c = ps !! c).
Proof.
  intros Hhs Hps Hpr. induction k as [|k IH]; intros Hk.
  - exists hs, ps. split_and!; try done. intros; lia.
  - destruct IH as (hs1 & ps1 & Hfold & Hl1 & Hl2 & Hlt & Hge); [lia|].
    rewrite foldM_seq_S, Hfold, bind_Returns.
    destruct (lookup_lt_is_Some_2 propagated k) as [seg Hseg]; [lia|].
    destruct (lookup_lt_is_Some_2 hs k) as [h Hh]; [lia|].
    destruct (lookup_lt_is_Some_2 ps k) as [p Hp]; [lia|].
    destruct (Hge k) as [Hh1 Hp1]; [lia|].
    rewrite Hh in Hh1. rewrite Hp in Hp1.
    unfold merge_column. rewrite (index_Some _ _ _ Hseg), bind_Returns.
    assert (∀ hs2 ps2,
      length hs2 = cols → length ps2 = cols →
      hs2 !! k = Some (join_segment h p seg).1 →
      ps2 !! k = Some (join_segment h p seg).2 →
      (∀ c, c ≠ k → hs2 !! c = hs1 !! c ∧ ps2 !! c = ps1 !! c) →
      (∀ c h p seg, c < S k →
         hs !! c = Some h → ps !! c = Some p → propagated !! c = Some seg →
         hs2 !! c = Some (join_segment h p seg).1
         ∧ ps2 !! c = Some (join_segment h p seg).2)
      ∧ (∀ c, S k ≤ c → hs2 !! c = hs !! c ∧ ps2 !! c = ps !! c)) as Hnew.
    { intros hs2 ps2 _ _ Hk1 Hk2 Hother. split.
      - intros c h' p' seg' Hc Hh' Hp' Hseg'.
        destruct (decide (c = k)) as [->|Hne].
        + by simplify_eq.
        + destruct (Hother c Hne) as [-> ->]. apply Hlt; [lia|done..].
      - intros c Hc. destruct (Hother c) as [-> ->]; [lia|]. apply Hge. lia. }
    unfold join_segment in Hnew.
    destruct (truthy seg) eqn:Etr; simpl.
    + rewrite (index_Some _ _ _ Hp1), bind_Returns.
      destruct (decide (p = Some seg)) as [Ep|Ep].
      * exists hs1, ps1. split_and!; try done; apply Hnew; auto.
      * rewrite (index_Some _ _ _ Hh1), bind_Returns.
        eexists _, _. split; [reflexivity|].
        rewrite !length_insert. split_and!; try done;
          apply Hnew; rewrite ?length_insert; try done.
        -- apply list_lookup_insert_eq. lia.
        -- apply list_lookup_insert_eq. lia.
        -- intros c Hc. by rewrite !list_lookup_insert_ne.
        -- apply list_lookup_insert_eq. lia.
        -- apply list_lookup_insert_eq. lia.
        -- intros c Hc. by rewrite !list_lookup_insert_ne.
    + exists hs1, ps1. split_and!; try done; apply Hnew; auto.
Qed.

Lemma merge_layer_spec cols grid hs ps r layer :
  grid !! r = Some layer → length layer = cols →
  length hs = cols → length ps = cols →
  ∃ hs' ps',
    merge_layer cols grid (hs, ps) r = Returns (hs', ps')
    ∧ length hs' = cols ∧ length ps' = cols
    ∧ ∀ c h p seg,
        hs !! c = Some h → ps !! c = Some p →
        propagated_row [] layer !! c = Some seg →
        hs' !! c = Some (join_segment h p seg).1
        ∧ ps' !! c = Some (join_segment h p seg).2.
Proof.
  intros Hr Hlayer Hhs Hps. unfold merge_layer.
  rewrite (index_Some _ _ _ Hr), bind_Returns.
  rewrite (propagate_spec _ _ Hlayer), bind_Returns.
  destruct (merge_columns_loop (propagated_row [] layer) hs ps cols cols)
    as (hs' & ps' & -> & H1 & H2 & H3 & _);
    [done|done|by rewrite length_propagated_row|done|].
  exists hs', ps'. split_and!; try done.
  intros c h p seg Hh Hp Hseg. apply H3; try done.
  apply lookup_lt_Some in Hh. lia.
Qed.

Lemma merge_layers_le grid k cols :
  k ≤ length grid →
  merge_layers grid k cols
  = foldM (merge_layer cols grid) (replicate cols [], replicate cols None)
          (seq 0 k).
Proof. intros H. unfold merge_layers. by rewrite Nat.min_l. Qed.

Lemma merge_layers_S grid k cols :
  k < length grid →
  merge_layers grid (S k) cols
  = (merge_layers grid k cols ≫= fun st => merge_layer cols grid st k).
Proof.
  intros H. rewrite !merge_layers_le by lia. apply foldM_seq_S.
Qed.

Lemma merge_layers_ge grid n cols :
  length grid ≤ n →
  merge_layers grid n cols = merge_layers grid (length grid) cols.
Proof.
  intros H. unfold merge_layers. by rewrite Nat.min_r, Nat.min_id.
Qed.

Lemma merge_layers_returns grid n cols :
  rectangular cols grid →
  ∃ hs ps, merge_layers grid n cols = Returns (hs, ps)
           ∧ length hs = cols ∧ length ps = cols.
Proof.
  intros Hrect.
  assert (∀ k, k ≤ length grid →
    ∃ hs ps, merge_layers grid k cols = Returns (hs, ps)
             ∧ length hs = cols ∧ length ps = cols) as Hk.
  { induction k as [|k IH]; intros Hle.
    - rewrite merge_layers_le by lia. simpl.
      eexists _, _. split; [reflexivity|]. by rewrite !length_replicate.
    - destruct IH as (hs & ps & E & H1 & H2); [lia|].
      rewrite merge_layers_S, E, bind_Returns by lia.
      destruct (lookup_lt_is_Some_2 grid k) as [layer Hl]; [lia|].
      destruct (merge_layer_spec cols grid hs ps k layer)
        as (hs' & ps' & -> & ? & ? & _); try done.
      + eapply (Forall_lookup_1 _ _ _ _ Hrect Hl).
      + eauto. }
  destruct (Nat.le_gt_cases n (length grid)); [auto|].
  rewrite merge_layers_ge by lia. auto.
Qed.

(** One more layer, seen from one column. *)
Lemma merge_layers_column grid cols k c hs ps seg :
  rectangular cols grid →
  merge_layers grid k cols = Returns (hs, ps) →
  segment grid cols k c = Some seg →
  ∃ hs' ps' h p,
    merge_layers grid (S k) cols = Returns (hs', ps')
    ∧ hs !! c = Some h ∧ ps !! c = Some p
    ∧ hs' !! c = Some (join_segment h p seg).1
    ∧ ps' !! c = Some (join_segment h p seg).2.
Proof.
  intros Hrect E Hseg. unfold segment in Hseg.
  destruct (grid !! k) as [layer|] eqn:Hl; [|done].
  pose proof (Forall_lookup_1 _ _ _ _ Hrect Hl) as Hlen. simpl in Hlen.
  rewrite (propagate_spec _ _ Hlen) in Hseg.
  destruct (merge_layers_returns grid k cols Hrect)
    as (hs0 & ps0 & E0 & Hhs & Hps).
  rewrite E in E0. injection E0 as <- <-.
  assert (c < cols) as Hc.
  { apply lookup_lt_Some in Hseg. by rewrite length_propagated_row, Hlen in Hseg. }
  destruct (lookup_lt_is_Some_2 hs c) as [h Hh]; [lia|].
  destruct (lookup_lt_is_Some_2 ps c) as [p Hp]; [lia|].
  destruct (merge_layer_spec cols grid hs ps k layer Hl Hlen Hhs Hps)
    as (hs' & ps' & E' & _ & _ & Hcol).
  exists hs', ps', h, p.
  rewrite merge_layers_S, E, bind_Returns by (by eapply lookup_lt_Some).
  split_and!; try done; by apply Hcol.
Qed.

Lemma join_segment_blank h p : join_segment h p [] = (h, p).
Proof. reflexivity. Qed.

Lemma join_segment_same h seg : join_segment h (Some seg) seg = (h, Some seg).
Proof.
  unfold join_segment. destruct (truthy seg); [|done].
  by destruct (decide (Some seg = Some seg)).
Qed.

Lemma join_segment_prev h p seg :
  seg ≠ [] → (join_segment h p seg).2 = Some seg.
Proof.
  intros Hseg. unfold join_segment. destruct seg; [done|]. simpl.
  by destruct (decide (p = Some (n :: seg))).
Qed.

(** Once a segment has been joined for a column, layers that are blank in
    that column or repeat the segment leave the column as it is. *)
Lemma repeated_segment_skipped grid cols c v k d hs ps :
  rectangular cols grid → v ≠ [] →
  merge_layers grid (S k) cols = Returns (hs, ps) →
  ps !! c = Some (Some v) →
  (∀ j, k < j → j ≤ k + d →
     segment grid cols j c = Some [] ∨ segment grid cols j c = Some v) →
  ∃ hs' ps',
    merge_layers grid (S (k + d)) cols = Returns (hs', ps')
    ∧ hs' !! c = hs !! c ∧ ps' !! c = Some (Some v).
Proof.
  intros Hrect Hv E Hp. induction d as [|d IH]; intros Hgap.
  - rewrite Nat.add_0_r. eauto.
  - destruct IH as (hs1 & ps1 & E1 & Hh1 & Hp1).
    { intros j ??. apply Hgap; lia. }
    replace (k + S d) with (S (k + d)) by lia.
    destruct (Hgap (S (k + d))) as [Hseg|Hseg]; [lia..| |];
      destruct (merge_layers_column _ _ _ _ _ _ _ Hrect E1 Hseg)
        as (hs' & ps' & h & p & -> & Hh & Hp' & Hh' & Hp'');
      exists hs', ps'; (split; [done|]);
      rewrite Hp1 in Hp'; injection Hp' as <-.
    + rewrite join_segment_blank in Hh', Hp''. simpl in *.
      by rewrite Hh', Hp'', <-Hh1.
    + rewrite join_segment_same in Hh', Hp''. simpl in *.
      by rewrite Hh', Hp'', <-Hh1.
Qed.

Lemma name_columns_spec hs cols k :
  length hs = cols → k ≤ cols →
  ∃ hs', foldM name_column hs (seq 0 k) = Returns hs'
         ∧ length hs' = cols
         ∧ (∀ c h, c < k → hs !! c = Some h →
              hs' !! c = Some (if truthy h then h
                               else u "col_" ++ str_of_nat (c + 1)))
         ∧ (∀ c, k ≤ c → hs' !! c = hs !! c).
Proof.
  intros Hhs. induction k as [|k IH]; intros Hk.
  - exists hs. split_and!; try done. intros; lia.
  - destruct IH as (hs1 & E & Hl & Hlt & Hge); [lia|].
    rewrite foldM_seq_S, E, bind_Returns.
    destruct (lookup_lt_is_Some_2 hs k) as [h Hh]; [lia|].
    pose proof (Hge k ltac:(lia)) as Hk1. rewrite Hh in Hk1.
    unfold name_column. rewrite (index_Some _ _ _ Hk1), bind_Returns.
    eexists. split; [reflexivity|].
    destruct (truthy h) eqn:Eh.
    + split_and!; try done.
      * intros c h' Hc Hh'. destruct (decide (c = k)) as [->|].
        -- simplify_eq. by rewrite Eh.
        -- apply Hlt; [lia|done].
      * intros c Hc. apply Hge. lia.
    + rewrite length_insert. split_and!; try done.
      * intros c h' Hc Hh'. destruct (decide (c = k)) as [->|].
        -- simplify_eq. rewrite Eh. apply list_lookup_insert_eq. lia.
        -- rewrite list_lookup_insert_ne by done. apply Hlt; [lia|done].
      * intros c Hc. rewrite list_lookup_insert_ne by lia. apply Hge. lia.
Qed.

Lemma flatten_spec grid layers cols hs ps :
  merge_layers grid layers cols = Returns (hs, ps) → length hs = cols →
  ∃ headers,
    flatten grid layers cols = Returns headers
    ∧ length headers = cols
    ∧ ∀ c h, hs !! c = Some h →
        headers !! c = Some (if truthy h then h
                             else u "col_" ++ str_of_nat (c + 1)).
Proof.
  intros E Hhs. unfold flatten. rewrite E, bind_Returns.
  destruct (name_columns_spec hs cols cols Hhs) as (hs' & -> & ? & H & _);
    [done|].
  exists hs'. split_and!; try done. intros c h Hh. apply H; [|done].
  apply lookup_lt_Some in Hh. lia.
Qed.

Lemma expand_returns (t : table) :
  ∃ rows max_cols,
    expand_rows place_cell t = Returns (rows, max_cols)
    ∧ expand place_cell t = Returns (pad max_cols <$> rows, max_cols)
    ∧ length rows = length t
    ∧ max_cols = max_list (length <$> rows)
    ∧ rectangular max_cols (pad max_cols <$> rows).
Proof.
  destruct (expand_rows_returns t) as (rows & max_cols & E).
  exists rows, max_cols. unfold expand. rewrite E, bind_Returns.
  apply expand_rows_spec in E as [? ->]. split_and!; try done.
  apply padded_length.
Qed.

(** [_table_to_markdown] returns for every table: no index is out of
    range and no loop runs out of fuel. *)
Lemma _table_to_markdown_returns (t : table) :
  ∃ md, _table_to_markdown t = Returns md.
Proof.
  unfold _table_to_markdown.
  destruct (expand_returns t) as (rows & max_cols & _ & -> & _ & _ & Hrect).
  rewrite bind_Returns.
  destruct (merge_layers_returns _ (header_layers t) _ Hrect)
    as (hs & ps & E & Hhs & _).
  destruct (flatten_spec _ _ _ _ _ E Hhs) as (headers & -> & _).
  rewrite bind_Returns. eauto.
Qed.

(** ** The parser and the scan never run out of fuel *)

Lemma handle_starttag_returns self tag attrs :
  ∃ self', handle_starttag self tag attrs = Returns self'.
Proof.
  unfold handle_starttag.
  destruct (decide (lower tag = u "table")); [eauto|].
  destruct (decide (lower tag = u "tr")); [destruct (_cur_table self); eauto|].
  destruct (is_td_th (lower tag)); [|eauto].
  destruct (_cur_row self); [|eauto].
  rewrite span_attrs_spec. simpl. eauto.
Qed.

Lemma handle_not_diverges self e : handle self e ≠ Diverges.
Proof.
  destruct e as [tag attrs|tag|data]; simpl.
  - by destruct (handle_starttag_returns self tag attrs) as [? ->].
  - unfold handle_endtag.
    destruct (is_td_th (lower tag)).
    + destruct (_cur_cell self); [|done]. by destruct (_cur_row self).
    + destruct (decide (lower tag = u "tr")); [done|].
      by destruct (decide (lower tag = u "table")).
  - unfold handle_data. by destruct (_cur_cell self).
Qed.

Lemma feed_not_diverges self rawdata : feed self rawdata ≠ Diverges.
Proof.
  unfold feed. generalize (events rawdata). intros evs. revert self.
  induction evs as [|e evs IH]; intros self; simpl; [done|].
  pose proof (handle_not_diverges self e).
  destruct (handle self e); simpl; [apply IH|done..].
Qed.

Lemma table_html_to_markdown_not_diverges table_html :
  table_html_to_markdown table_html ≠ Diverges.
Proof.
  unfold table_html_to_markdown.
  pose proof (feed_not_diverges init table_html).
  destruct (feed init table_html) as [parser| |]; simpl; [|done..].
  destruct (tables parser) as [|t ?]; [done|].
  by destruct (_table_to_markdown_returns t) as [md ->].
Qed.

Lemma length_end_tag : length end_tag = 8.
Proof. reflexivity. Qed.

(** The offsets found in one turn of the loop are in order. *)
Lemma scan_offsets lw pos start gt end_ :
  find (u "<table") lw pos = Some start →
  find (u ">") lw start = Some gt →
  find end_tag lw (gt + 1) = Some end_ →
  pos ≤ start ∧ start ≤ gt ∧ gt < end_ ∧ end_ + 8 ≤ length lw.
Proof.
  intros (H1 & _)%find_Some (H2 & _)%find_Some (H3 & H4 & _)%find_Some.
  rewrite length_end_tag in H4. lia.
Qed.

Lemma scan_acc fuel html lw pos acc :
  scan fuel html lw pos acc
  = (scan fuel html lw pos [] ≫= fun parts => Returns (acc ++ parts)).
Proof.
  revert pos acc. induction fuel as [|fuel IH]; intros pos acc; [done|].
  simpl. destruct (find (u "<table") lw pos) as [start|]; [|done].
  destruct (find (u ">") lw start) as [gt|];
    [|by rewrite <-app_assoc].
  destruct (find end_tag lw (gt + 1)) as [end_|];
    [|by rewrite <-app_assoc].
  destruct (table_html_to_markdown _) as [md| |]; simpl; [|done..].
  rewrite IH, (IH _ ([slice html pos start] ++ [md])).
  destruct (scan fuel html lw _ []); simpl; [|done..].
  by rewrite <-!app_assoc.
Qed.

(** Every turn moves [pos] forward, so the result does not depend on the
    fuel once there is more of it than text left. *)
Lemma scan_fuel fuel fuel' html lw pos acc :
  length lw - pos < fuel → length lw - pos < fuel' →
  scan fuel html lw pos acc = scan fuel' html lw pos acc.
Proof.
  revert fuel' pos acc.
  induction fuel as [|fuel IH]; intros [|fuel'] pos acc H1 H2; try lia.
  simpl. destruct (find (u "<table") lw pos) as [start|] eqn:E1; [|done].
  destruct (find (u ">") lw start) as [gt|] eqn:E2; [|done].
  destruct (find end_tag lw (gt + 1)) as [end_|] eqn:E3; [|done].
  destruct (scan_offsets _ _ _ _ _ E1 E2 E3) as (?&?&?&?).
  destruct (table_html_to_markdown _) as [md| |]; simpl; [|done..].
  apply IH; lia.
Qed.

Lemma scan_not_diverges fuel html lw pos acc :
  length lw - pos < fuel → scan fuel html lw pos acc ≠ Diverges.
Proof.
  revert pos acc.
  induction fuel as [|fuel IH]; intros pos acc H1; [lia|].
  simpl. destruct (find (u "<table") lw pos) as [start|] eqn:E1; [|done].
  destruct (find (u ">") lw start) as [gt|] eqn:E2; [|done].
  destruct (find end_tag lw (gt + 1)) as [end_|] eqn:E3; [|done].
  destruct (scan_offsets _ _ _ _ _ E1 E2 E3) as (?&?&?&?).
  pose proof (table_html_to_markdown_not_diverges
                (slice html start (end_ + length end_tag))).
  destruct (table_html_to_markdown _) as [md| |]; simpl; [|done..].
  apply IH; lia.
Qed.

(** The loop of [replace_tables_in_place] ends on every input. *)
Lemma replace_tables_in_place_ends html :
  replace_tables_in_place html ≠ Diverges.
Proof.
  unfold replace_tables_in_place. destruct html as [html|]; [|done].
  destruct (truthy html); [|done]. cbn [negb].
  pose proof (scan_not_diverges (S (length (lower html))) html (lower html)
                0 []) as H.
  destruct (scan _ _ _ _ _); [done..|]. exfalso. apply H; [lia|done].
Qed.

(** One turn of the loop that finds a complete region. *)
Lemma scan_region html pos start gt end_ :
  find (u "<table") (lower html) pos = Some start →
  find (u ">") (lower html) start = Some gt →
  find end_tag (lower html) (gt + 1) = Some end_ →
  resume html pos
  = (md ← table_html_to_markdown (slice html start (end_ + 8));
     parts ← resume html (end_ + 8);
     mret (slice html pos start :: md :: parts)).
Proof.
  intros E1 E2 E3. unfold resume at 1. simpl. rewrite E1, E2, E3.
  destruct (scan_offsets _ _ _ _ _ E1 E2 E3) as (?&?&?&?).
  destruct (table_html_to_markdown _) as [md| |]; simpl; [|done..].
  rewrite scan_acc. unfold resume.
  by rewrite (scan_fuel (length (lower html)) (S (length (lower html))))
    by lia.
Qed.

Lemma slice_drop (s : str) a b : a ≤ b → slice s a b ++ drop b s = drop a s.
Proof.
  intros H. unfold slice.
  replace (drop b s) with (drop (b - a) (drop a s)).
  - apply take_drop.
  - rewrite drop_drop. f_equal. lia.
Qed.

(** The parts that the loop appends split the text it has read: each part
    stands for a stretch of [html], which is either copied or cut out and
    handed to [table_html_to_markdown]. *)
Lemma scan_partition fuel html lw pos parts :
  scan fuel html lw pos [] = Returns parts →
  ∃ pieces : list piece,
    concat (source <$> pieces) = drop pos html
    ∧ parts = output <$> pieces
    ∧ Forall (cut_at html lw) pieces.
Proof.
  revert pos parts. induction fuel as [|fuel IH]; intros pos parts; [done|].
  simpl. destruct (find (u "<table") lw pos) as [start|] eqn:E1.
  2:{ intros [= <-]. exists [Kept (drop pos html)]. simpl.
      rewrite app_nil_r. split_and!; try done. by constructor. }
  assert (pos ≤ start) by (by apply find_Some in E1 as [? _]).
  assert (∀ parts,
    Returns [slice html pos start; drop start html] = Returns parts →
    ∃ pieces : list piece,
      concat (source <$> pieces) = drop pos html
      ∧ parts = output <$> pieces
      ∧ Forall (cut_at html lw) pieces) as Hcopy.
  { intros ? [= <-].
    exists [Kept (slice html pos start); Kept (drop start html)]. simpl.
    rewrite app_nil_r, slice_drop by done.
    split_and!; try done. by repeat constructor. }
  destruct (find (u ">") lw start) as [gt|] eqn:E2; [|apply Hcopy].
  destruct (find end_tag lw (gt + 1)) as [end_|] eqn:E3; [|apply Hcopy].
  destruct (scan_offsets _ _ _ _ _ E1 E2 E3) as (?&?&?&?).
  destruct (table_html_to_markdown _) as [md| |] eqn:Emd; simpl; [|done..].
  rewrite scan_acc. intros (rest & Hrest & [= <-])%bind_inv.
  apply IH in Hrest as (pieces & Hraw & -> & Hall).
  exists (Kept (slice html pos start)
          :: Replaced (slice html start (end_ + 8)) md :: pieces).
  csimpl. rewrite Hraw, !slice_drop by lia. split_and!; try done.
  constructor; [done|]. constructor; [|done].
  split; [done|]. exists start, end_. split_and!; [done|lia| |].
  - by apply find_Some in E1 as (_ & _ & ? & _).
  - by apply find_Some in E3 as (_ & _ & ? & _).
Qed.

(** ** [lower] and the text it comes from *)

Lemma lower_cons c s : lower (c :: s) = lower_cp c ++ lower s.
Proof. reflexivity. Qed.

Lemma lower_cp_cases c :
  (∃ d, lower_cp c = [d]) ∨ lower_cp c = [105%N; 775%N].
Proof.
  unfold lower_cp. destruct (between 65 90 c); [eauto|].
  destruct (c =? 304)%N; eauto.
Qed.

(** An occurrence in [lower s] of a needle that does not begin with
    U+0307 begins where the lowercase form of some suffix of [s] begins. *)
Lemma occurrence_in_lower (a : N) (p s : str) (k : nat) :
  a ≠ 775%N →
  startswith (a :: p) (drop k (lower s)) = true →
  ∃ i, startswith (a :: p) (lower (drop i s)) = true.
Proof.
  intros Ha. revert k. induction s as [|c s IH]; intros k H.
  - change (lower []) with (@nil N) in H. by rewrite drop_nil in H.
  - destruct k as [|k]; [by exists 0|].
    rewrite lower_cons in H.
    destruct (lower_cp_cases c) as [[d E]|E]; rewrite E in H; simpl in H.
    + destruct (IH k H) as [i Hi]. by exists (S i).
    + destruct k as [|k]; simpl in H.
      * apply andb_prop in H as [H _]. apply N.eqb_eq in H. done.
      * destruct (IH k H) as [i Hi]. by exists (S i).
Qed.

(** Without U+0130, [lower] works code point by code point. *)
Lemma lower_without_dotted (s : str) :
  Forall (fun c => c ≠ 304%N) s → lower s = lower_plain <$> s.
Proof.
  induction 1 as [|c s Hc _ IH]; [done|].
  rewrite lower_cons, IH, fmap_cons. unfold lower_cp, lower_plain at 2.
  destruct (between 65 90 c); [done|].
  by destruct (N.eqb_spec c 304).
Qed.

Lemma startswith_take p s n :
  startswith p s = true → length p ≤ n → startswith p (take n s) = true.
Proof.
  intros H%startswith_inv Hn. rewrite H, take_app_ge by done.
  apply startswith_app.
Qed.

(** Without U+0130 the offsets of [lower html] are those of [html], and
    what the loop cuts out is a table region. *)
Lemma cut_at_table_region html p :
  Forall (fun c => c ≠ 304%N) html →
  cut_at html (lower html) p → table_region p.
Proof.
  intros Hplain. destruct p as [|region md]; [done|].
  intros (Hmd & start & end_ & -> & Hlt & Hopen & Hclose).
  split; [done|]. unfold slice.
  rewrite (lower_without_dotted (take _ _))
    by by apply Forall_take, Forall_drop.
  rewrite fmap_take, fmap_drop, <-lower_without_dotted by done.
  split.
  - apply startswith_take; [done|]. simpl. lia.
  - exists (take (end_ - start) (drop start (lower html))).
    replace (end_ + 8 - start) with ((end_ - start) + 8) by lia.
    rewrite <-take_take_drop, drop_drop. f_equal.
    replace (start + (end_ - start)) with end_ by lia.
    apply startswith_inv in Hclose. rewrite Hclose.
    by apply take_app_length'.
Qed.

(** ** Worked inputs *)

(** C3.  The end-to-end example: the three-row table with a [rowspan=2]
    and a [colspan=2] header cell is parsed into the expected cells, its
    flattened header row is [Name | Info > Age | Info > City], its only body
    row is [Tom | 30 | NY]; [replace_tables_in_place] (dify.py) and
    [html_table_to_flat_markdown] (main.py) both return that table. *)
Theorem example_table_converted :
  let t := [[Cell (u "Name") 2 1 true; Cell (u "Info") 1 2 true];
            [Cell (u "Age") 1 1 true; Cell (u "City") 1 1 true];
            [Cell (u "Tom") 1 1 false; Cell (u "30") 1 1 false;
             Cell (u "NY") 1 1 false]] in
  let grid := [[u "Name"; u "Info"; []];
               [u "Name"; u "Age"; u "City"];
               [u "Tom"; u "30"; u "NY"]] in
  (∃ parser, feed init example_table = Returns parser
             ∧ tables parser = [t])
  ∧ expand place_cell t = Returns (grid, 3)
  ∧ header_layers t = 2
  ∧ flatten grid 2 3 = Returns [u "Name"; u "Info > Age"; u "Info > City"]
  ∧ drop 2 grid = [[u "Tom"; u "30"; u "NY"]]
  ∧ replace_tables_in_place (Some example_table) = Returns example_markdown
  ∧ Main.html_table_to_flat_markdown example_table = Returns example_markdown.
Proof.
  split_and!; [eexists; split|..]; vm_compute; reflexivity.
Qed.


(** ** The locator *)

(** C1.  The text outside the tables is not always kept.  [lower] of a
    text that holds U+0130 is longer than the text, and the offsets found
    in [lower] are used to cut [html]: for the table [dotted_table]
    followed by [yz] the region handed to [table_html_to_markdown] reaches
    one character past [</table>], and the [y] that follows the table is
    missing from the result. *)
Theorem text_after_table_lost :
  table_html_to_markdown dotted_table = Returns dotted_markdown
  ∧ length (lower (dotted_table ++ u "yz"))
    = S (length (dotted_table ++ u "yz"))
  ∧ replace_tables_in_place (Some (dotted_table ++ u "yz"))
    = Returns (dotted_markdown ++ u "z").
Proof. split_and!; vm_compute; reflexivity. Qed.

(** Whatever the offsets, the result is made of stretches of the input that
    follow one another and leave nothing out, each one copied or replaced
    by what [table_html_to_markdown] returns for it. *)
Lemma replace_tables_in_place_partition html out :
  replace_tables_in_place (Some html) = Returns out →
  ∃ pieces : list piece,
    concat (source <$> pieces) = html
    ∧ out = concat (output <$> pieces)
    ∧ Forall (cut_at html (lower html)) pieces.
Proof.
  unfold replace_tables_in_place. destruct (truthy html) eqn:E; cbn [negb].
  - intros (parts & Hparts & [= <-])%bind_inv.
    apply scan_partition in Hparts as (pieces & H1 & -> & H3).
    exists pieces. by rewrite drop_0 in H1.
  - intros [= <-]. destruct html; [|done]. by exists [].
Qed.

(** For a text without U+0130 the claim of C1 holds whenever the function
    returns: the result is the input with table regions replaced by their
    rendering, everything else in its place. *)
Lemma replace_tables_in_place_frame html out :
  Forall (fun c => c ≠ 304%N) html →
  replace_tables_in_place (Some html) = Returns out →
  ∃ pieces : list piece,
    concat (source <$> pieces) = html
    ∧ out = concat (output <$> pieces)
    ∧ Forall table_region pieces.
Proof.
  intros Hplain (pieces & H1 & H2 & H3)%replace_tables_in_place_partition.
  exists pieces. split_and!; try done.
  eapply Forall_impl; [done|]. intros p. by apply cut_at_table_region.
Qed.

(** C2.  A text with no occurrence of [<table], in any mix of cases, is
    returned as it is; [None] and the empty text give the empty text. *)
Theorem no_table_unchanged :
  replace_tables_in_place None = Returns []
  ∧ replace_tables_in_place (Some []) = Returns []
  ∧ ∀ html,
      (∀ i, startswith (u "<table") (lower (drop i html)) = false) →
      replace_tables_in_place (Some html) = Returns html.
Proof.
  split_and!; [done..|]. intros html Hno.
  unfold replace_tables_in_place. destruct (truthy html) eqn:E; cbn [negb].
  2:{ by destruct html. }
  assert (find (u "<table") (lower html) 0 = None) as Hfind.
  { destruct (find _ _ _) as [k|] eqn:Ek; [|done].
    apply find_Some in Ek as (_ & _ & Hk & _).
    change (u "<table") with (60%N :: u "table") in Hk, Hno.
    apply occurrence_in_lower in Hk as [i Hi]; [|done]. congruence. }
  simpl. rewrite Hfind. simpl. by rewrite app_nil_r.
Qed.

Lemma no_table_unchanged_witness :
  replace_tables_in_place (Some (u "<p>a|b</p>")) = Returns (u "<p>a|b</p>").
Proof.
  apply (proj2 (proj2 no_table_unchanged)).
  intros i. do 11 (destruct i as [|i]; [reflexivity|]). reflexivity.
Defined.

(** What the loop does with an opening that is not completed: everything
    from [pos] on is copied. *)
Lemma scan_unclosed fuel html lw pos start acc :
  find (u "<table") lw pos = Some start →
  find (u ">") lw start = None
  ∨ (∃ gt, find (u ">") lw start = Some gt
           ∧ find end_tag lw (gt + 1) = None) →
  scan (S fuel) html lw pos acc
  = Returns (acc ++ [slice html pos start; drop start html])
  ∧ slice html pos start ++ drop start html = drop pos html.
Proof.
  intros E1 H. split.
  - simpl. rewrite E1. destruct H as [->|(gt & -> & ->)];
      by rewrite <-app_assoc.
  - apply slice_drop. by apply find_Some in E1 as [? _].
Qed.

(** C5.  [replace_tables_in_place] can raise on a text whose last [<table]
    has no [>]: the table before it is parsed first, and [handle_endtag]
    appends the cell to [_cur_row] (line 123) although [</tr>] has already
    set it to [None]. *)
Theorem end_tags_out_of_order_raise :
  replace_tables_in_place
    (Some (u "<table><tr><td>x</tr></td></table><table"))
  = Raises AttributeError.
Proof. vm_compute. reflexivity. Qed.

(** C9.  The opening of a region is wherever [<table] occurs in [lower];
    the character that follows, here a letter, so that the tag name is
    longer than [table], is not looked at.  The region from there to the
    next [</table>] is handed to [table_html_to_markdown]. *)
Theorem table_prefix_taken_as_opening html start gt end_ x :
  find (u "<table") (lower html) 0 = Some start →
  lower html !! (start + 6) = Some x → is_alpha x = true →
  find (u ">") (lower html) start = Some gt →
  find end_tag (lower html) (gt + 1) = Some end_ →
  replace_tables_in_place (Some html)
  = (md ← table_html_to_markdown (slice html start (end_ + 8));
     parts ← resume html (end_ + 8);
     mret (take start html ++ md ++ concat parts)).
Proof.
  intros E1 Hx _ E2 E3. unfold replace_tables_in_place.
  destruct html as [|c html]; [done|]. cbn [truthy negb].
  change (scan _ _ _ 0 []) with (resume (c :: html) 0).
  rewrite (scan_region _ _ _ _ _ E1 E2 E3).
  destruct (table_html_to_markdown _) as [md| |]; simpl; [|done..].
  destruct (resume _ _) as [parts| |]; simpl; [|done..].
  unfold slice. by rewrite Nat.sub_0_r.
Qed.

Lemma table_prefix_taken_as_opening_witness :
  replace_tables_in_place
    (Some (u "a<tablex><table><tr><td>1</td></tr></table>b"))
  = (md ← table_html_to_markdown
            (u "<tablex><table><tr><td>1</td></tr></table>");
     parts ← resume (u "a<tablex><table><tr><td>1</td></tr></table>b") 43;
     mret (u "a" ++ md ++ concat parts)).
Proof.
  apply (table_prefix_taken_as_opening
           (u "a<tablex><table><tr><td>1</td></tr></table>b") 1 8 35 120%N);
    reflexivity.
Defined.

(** The text of the witness: [<tablex>] is swallowed with the table. *)
Example tablex_converted :
  replace_tables_in_place
    (Some (u "a<tablex><table><tr><td>1</td></tr></table>b"))
  = Returns (u "a| col_1 |" ++ nl ++ u "| :--- |" ++ nl ++ u "| 1 |b").
Proof. vm_compute. reflexivity. Qed.

(** ** Regions that are not tables *)

(** C6, as the claim has it, fails: a region with a table of no rows is
    parsed, and rendered as two lines. *)
Lemma empty_table_not_passed_through :
  (∃ parser, feed init (u "<table></table>") = Returns parser
             ∧ tables parser = [[]])
  ∧ table_html_to_markdown (u "<table></table>")
    = Returns (u "|  |" ++ nl ++ u "|  |")
  ∧ table_html_to_markdown (u "<table></table>")
    ≠ Returns (u "<table></table>").
Proof.
  split_and!; [eexists; split; vm_compute; reflexivity
              |vm_compute; reflexivity|vm_compute; discriminate].
Qed.

(** C6, amended.  A region in which the parser completes no table
    ([parser.tables] is empty) is returned as it is, in its place, and the
    scan goes on after it. *)
Theorem unparsed_region_kept html pos start gt end_ parser :
  find (u "<table") (lower html) pos = Some start →
  find (u ">") (lower html) start = Some gt →
  find end_tag (lower html) (gt + 1) = Some end_ →
  feed init (slice html start (end_ + 8)) = Returns parser →
  tables parser = [] →
  table_html_to_markdown (slice html start (end_ + 8))
  = Returns (slice html start (end_ + 8))
  ∧ resume html pos
    = (parts ← resume html (end_ + 8);
       mret (slice html pos start :: slice html start (end_ + 8) :: parts)).
Proof.
  intros E1 E2 E3 Hfeed Htables.
  assert (table_html_to_markdown (slice html start (end_ + 8))
          = Returns (slice html start (end_ + 8))) as Hmd.
  { unfold table_html_to_markdown. rewrite Hfeed, bind_Returns.
    by rewrite Htables. }
  split; [done|]. by rewrite (scan_region _ _ _ _ _ E1 E2 E3), Hmd.
Qed.

Lemma unparsed_region_kept_witness :
  table_html_to_markdown (u "<tablex><tr><td>1</td></tr></table>")
  = Returns (u "<tablex><tr><td>1</td></tr></table>")
  ∧ resume (u "a<tablex><tr><td>1</td></tr></table>b") 0
    = (parts ← resume (u "a<tablex><tr><td>1</td></tr></table>b") 36;
       mret (u "a" :: u "<tablex><tr><td>1</td></tr></table>" :: parts)).
Proof.
  eapply (unparsed_region_kept
            (u "a<tablex><tr><td>1</td></tr></table>b") 0 1 8 28);
    vm_compute; reflexivity.
Defined.


(** A table whose rows have no cells is rendered as the header line, the
    separator line and one line per row, all of them [|  |]. *)
Lemma empty_rows_rendered n :
  _table_to_markdown (replicate n [])
  = Returns (join nl (replicate (2 + n) (u "|  |"))).
Proof.
  assert (∀ (l : list (nat * row)) grid,
    Forall (fun ir => ir.2 = []) l →
    foldM (expand_step place_cell) (grid, ∅, 0) l
    = Returns (grid ++ replicate (length l) [], ∅, 0)) as Hloop.
  { induction l as [|[i r] l IH]; intros grid Hl.
    - simpl. by rewrite app_nil_r.
    - apply Forall_cons in Hl as [Hr Hl]. simpl in Hr. subst r.
      cbn [foldM]. unfold expand_step, expand_row.
      rewrite map_size_empty. cbn [place_reserved].
      rewrite lookup_empty. simpl. rewrite IH by done.
      by rewrite <-app_assoc. }
  unfold _table_to_markdown, expand, expand_rows.
  rewrite Hloop.
  2:{ apply Forall_forall. intros [i r] Hir.
      apply elem_of_lookup_imap in Hir as (j & y & [= -> ->] & Hy).
      by apply lookup_replicate in Hy as [-> _]. }
  rewrite !bind_Returns. cbv beta iota.
  rewrite length_imap, length_replicate, app_nil_l.
  replace (header_layers (replicate n [])) with 0 by (by destruct n).
  unfold flatten, merge_layers. rewrite Nat.min_0_l.
  cbn [seq foldM replicate mbind res_bind mret res_ret]. unfold render.
  change (map ?f ?l) with (f <$> l).
  rewrite drop_0, !fmap_replicate. reflexivity.
Qed.

(** ** Span attributes *)

(** C7, as the claim has it, fails: a span of zero or below is kept as it
    is, not brought up to 1. *)
Lemma zero_span_not_clamped :
  ∃ parser c,
    feed init (u "<table><tr><td rowspan=0 colspan=-2>x</td></tr></table>")
    = Returns parser
    ∧ tables parser = [[[c]]]
    ∧ rowspan c = 0%Z ∧ colspan c = (-2)%Z
    ∧ ¬ (1 ≤ rowspan c)%Z ∧ ¬ (1 ≤ colspan c)%Z.
Proof.
  eexists _, (Cell (u "x") 0 (-2) false).
  split_and!; [vm_compute; reflexivity..|simpl; lia|simpl; lia].
Qed.

(** C7, amended.  [handle_starttag] never raises.  For a [td] or [th]
    inside a row the new cell has, as [rowspan] and as [colspan], the last
    value of that attribute that [int] accepts, whatever its sign, and 1
    when the attribute is missing or no value of it is accepted. *)
Theorem span_attributes_parsed self tag attrs :
  (∃ self', handle_starttag self tag attrs = Returns self')
  ∧ (is_td_th (lower tag) = true → is_Some (_cur_row self) →
     ∃ self',
       handle_starttag self tag attrs = Returns self'
       ∧ _cur_cell self'
         = Some {| text := [];
                   rowspan := declared_span (u "rowspan") attrs;
                   colspan := declared_span (u "colspan") attrs;
                   is_header := bool_decide (lower tag = u "th") |}).
Proof.
  split; [apply handle_starttag_returns|].
  intros Htd [r Hr]. unfold handle_starttag.
  assert (lower tag = u "td" ∨ lower tag = u "th") as Ht.
  { unfold is_td_th in Htd. apply orb_prop in Htd as [H|H];
      apply bool_decide_eq_true in H; auto. }
  destruct (decide (lower tag = u "table")) as [E|_];
    [by destruct Ht as [Ht|Ht]; rewrite Ht in E|].
  destruct (decide (lower tag = u "tr")) as [E|_];
    [by destruct Ht as [Ht|Ht]; rewrite Ht in E|].
  rewrite Htd, Hr, span_attrs_spec. simpl. eauto.
Qed.

Lemma span_attributes_parsed_witness :
  ∃ self',
    handle_starttag
      {| tables := []; _cur_table := Some []; _cur_row := Some [];
         _cur_cell := None; _cell_text := [] |}
      (u "TD")
      [(u "rowspan", Some (u "x")); (u "ROWSPAN", Some (u " 3 "));
       (u "rowspan", None); (u "colspan", Some (u "two"))]
    = Returns self'
    ∧ _cur_cell self'
      = Some {| text := []; rowspan := 3; colspan := 1; is_header := false |}.
Proof.
  refine (proj2 (span_attributes_parsed _ (u "TD") _) _ _).
  - reflexivity.
  - simpl. eauto.
Defined.

(** main.py reads the same attributes with [int(cell.get(key, 1) or 1)],
    which is not guarded: a value that is not a number raises. *)
Example main_span_raises :
  Main.html_table_to_flat_markdown
    (u "<table><tr><td rowspan=x>1</td></tr></table>")
  = Raises ValueError.
Proof. vm_compute. reflexivity. Qed.

(** ** The grid *)

(** C8.  For every table the grid expander returns, and its grid is
    rectangular: the rows as placed are padded to [max_cols], the length of
    the longest of them, so every row of the grid has length [max_cols]. *)
Theorem grid_rectangular (t : table) :
  ∃ rows max_cols,
    expand_rows place_cell t = Returns (rows, max_cols)
    ∧ length rows = length t
    ∧ max_cols = max_list (length <$> rows)
    ∧ expand place_cell t = Returns (pad max_cols <$> rows, max_cols)
    ∧ Forall (fun r => length r = max_cols) (pad max_cols <$> rows).
Proof.
  destruct (expand_returns t) as (rows & max_cols & H1 & H2 & H3 & H4 & H5).
  exists rows, max_cols. by split_and!.
Qed.

(** The grid of main.py is rectangular too, when its span attributes are
    numbers. *)
Lemma main_grid_rectangular table grid :
  Main._build_grid_with_spans table = Returns grid →
  ∃ max_cols, Forall (fun r => length r = max_cols) grid.
Proof.
  unfold Main._build_grid_with_spans.
  destruct (expand _ _) as [[g max_cols]| |] eqn:E; [|done..].
  intros [= <-]. exists max_cols. by eapply expanded_grid_rectangular.
Qed.

(** ** Header flattening *)

Lemma segment_own grid cols r c layer x :
  rectangular cols grid →
  grid !! r = Some layer → layer !! c = Some x → truthy (strip x) = true →
  segment grid cols r c = Some (strip x).
Proof.
  intros Hrect Hl Hx Htr. unfold segment. rewrite Hl.
  rewrite (propagate_spec layer cols)
    by apply (Forall_lookup_1 _ _ _ _ Hrect Hl).
  by apply propagated_row_own.
Qed.

(** The column after a layer that has a segment for it. *)
Lemma segment_joined grid cols k c v :
  rectangular cols grid → v ≠ [] → segment grid cols k c = Some v →
  ∃ hs ps, merge_layers grid (S k) cols = Returns (hs, ps)
           ∧ ps !! c = Some (Some v)
           ∧ (k = 0 → hs !! c = Some v).
Proof.
  intros Hrect Hv Hseg.
  destruct (merge_layers_returns grid k cols Hrect) as (hs0 & ps0 & E & _).
  destruct (merge_layers_column _ _ _ _ _ _ _ Hrect E Hseg)
    as (hs & ps & h & p & E' & Hh & Hp & Hh' & Hp').
  exists hs, ps. split_and!; [done| |].
  - by rewrite Hp', join_segment_prev.
  - intros ->. rewrite merge_layers_le in E by lia. injection E as <- <-.
    apply lookup_replicate in Hh as [-> _]. apply lookup_replicate in Hp as [-> _].
    rewrite Hh'. unfold join_segment. by destruct v.
Qed.

(** C4.  A column whose propagated value in a layer is the one joined for
    it from the layer just above ([rowspan] puts the same text in both) is
    skipped in that layer: its header stays as it was, and for the two top
    layers the flattened header is that text once. *)
Theorem rowspan_segment_joined_once grid cols k c v :
  rectangular cols grid → v ≠ [] →
  segment grid cols k c = Some v →
  segment grid cols (S k) c = Some v →
  ∃ hs ps hs' ps',
    merge_layers grid (S k) cols = Returns (hs, ps)
    ∧ merge_layers grid (S (S k)) cols = Returns (hs', ps')
    ∧ hs' !! c = hs !! c
    ∧ (k = 0 →
       ∃ headers, flatten grid 2 cols = Returns headers
                  ∧ headers !! c = Some v).
Proof.
  intros Hrect Hv Hk HSk.
  destruct (segment_joined _ _ _ _ _ Hrect Hv Hk) as (hs & ps & E & Hp & H0).
  destruct (repeated_segment_skipped grid cols c v k 1 hs ps Hrect Hv E Hp)
    as (hs' & ps' & E' & Hh' & _).
  { intros j ??. replace j with (S k) by lia. auto. }
  replace (k + 1) with (S k) in E' by lia.
  exists hs, ps, hs', ps'. split_and!; try done.
  intros ->. specialize (H0 eq_refl).
  destruct (merge_layers_returns grid 2 cols Hrect) as (? & ? & E2 & Hlen & _).
  rewrite E' in E2. injection E2 as <- <-.
  destruct (flatten_spec _ _ _ _ _ E' Hlen) as (headers & -> & _ & Hcol).
  exists headers. split; [done|].
  rewrite (Hcol c v) by (by rewrite Hh'). by destruct v.
Qed.

Lemma rowspan_segment_joined_once_witness :
  ∃ hs ps hs' ps',
    merge_layers [[u "Name"; u "Info"; []]; [u "Name"; u "Age"; u "City"]] 1 3
    = Returns (hs, ps)
    ∧ merge_layers [[u "Name"; u "Info"; []]; [u "Name"; u "Age"; u "City"]]
                   2 3
      = Returns (hs', ps')
    ∧ hs' !! 0 = hs !! 0
    ∧ (0 = 0 →
       ∃ headers,
         flatten [[u "Name"; u "Info"; []]; [u "Name"; u "Age"; u "City"]] 2 3
         = Returns headers
         ∧ headers !! 0 = Some (u "Name")).
Proof.
  apply (rowspan_segment_joined_once
           [[u "Name"; u "Info"; []]; [u "Name"; u "Age"; u "City"]]
           3 0 0 (u "Name")).
  - repeat constructor.
  - discriminate.
  - reflexivity.
  - reflexivity.
Defined.

(** C10.  The check compares texts only, and what it remembers for a
    column outlives the layers that are blank there.  When two cells of a
    column, in layers [k] and [m], have the same non-blank text and the
    column is blank in the layers between them, whether or not a [rowspan]
    links the cells: layer [k] appends the text to the header [h0] the
    column has so far (it is [h0 > text], or the text alone when [h0] is
    empty), unless the text is already the one joined last; layer [m] adds
    nothing; and the flattened header of [m + 1] layers has the text
    appended once, so for [k = 0] it is the text itself. *)
Theorem equal_text_joined_once grid cols k m c lk lm x y :
  rectangular cols grid → k < m →
  grid !! k = Some lk → lk !! c = Some x →
  grid !! m = Some lm → lm !! c = Some y →
  strip x = strip y → strip x ≠ [] →
  (∀ j, k < j → j < m → segment grid cols j c = Some []) →
  ∃ hs0 ps0 h0 p0 hs ps hs' ps' headers,
    merge_layers grid k cols = Returns (hs0, ps0)
    ∧ hs0 !! c = Some h0 ∧ ps0 !! c = Some p0
    ∧ merge_layers grid (S k) cols = Returns (hs, ps)
    ∧ hs !! c = Some (if decide (p0 = Some (strip x)) then h0
                      else if truthy h0 then h0 ++ u " > " ++ strip x
                           else strip x)
    ∧ merge_layers grid (S m) cols = Returns (hs', ps')
    ∧ hs' !! c = hs !! c
    ∧ ps' !! c = Some (Some (strip x))
    ∧ flatten grid (S m) cols = Returns headers
    ∧ (p0 ≠ Some (strip x) →
       headers !! c = Some (if truthy h0 then h0 ++ u " > " ++ strip x
                            else strip x))
    ∧ (k = 0 → h0 = [] ∧ p0 = None ∧ headers !! c = Some (strip x)).
Proof.
  intros Hrect Hkm Hlk Hx Hlm Hy Hxy Hne Hgap.
  assert (truthy (strip x) = true) as Htx by (by destruct (strip x)).
  pose proof (segment_own _ _ _ _ _ _ Hrect Hlk Hx Htx) as Hk.
  assert (segment grid cols m c = Some (strip x)) as Hm.
  { rewrite Hxy. apply (segment_own _ _ _ _ _ _ Hrect Hlm Hy).
    by rewrite <-Hxy. }
  destruct (merge_layers_returns grid k cols Hrect) as (hs0 & ps0 & E0 & _).
  destruct (merge_layers_column _ _ _ _ _ _ _ Hrect E0 Hk)
    as (hs & ps & h0 & p0 & E & Hh0 & Hp0 & Hh & Hp).
  assert (ps !! c = Some (Some (strip x))) as Hp1
    by (by rewrite Hp, join_segment_prev).
  destruct (repeated_segment_skipped grid cols c (strip x) k (m - k) hs ps
              Hrect Hne E Hp1) as (hs' & ps' & E' & Hh' & Hp').
  { intros j ??. destruct (decide (j = m)) as [->|]; [auto|].
    left. apply Hgap; lia. }
  replace (k + (m - k)) with m in E' by lia.
  destruct (merge_layers_returns grid (S m) cols Hrect)
    as (hs2 & ps2 & E2 & Hlen & _).
  rewrite E' in E2. injection E2 as <- <-.
  destruct (flatten_spec _ _ _ _ _ E' Hlen) as (headers & Ef & _ & Hcol).
  assert (hs !! c
          = Some (if decide (p0 = Some (strip x)) then h0
                  else if truthy h0 then h0 ++ u " > " ++ strip x
                       else strip x)) as Hjoin.
  { rewrite Hh. unfold join_segment. rewrite Htx.
    by destruct (decide (p0 = Some (strip x))). }
  assert (p0 ≠ Some (strip x) →
          headers !! c = Some (if truthy h0 then h0 ++ u " > " ++ strip x
                               else strip x)) as Hfirst.
  { intros Hp0'. rewrite Hjoin in Hh'.
    destruct (decide (p0 = Some (strip x))); [done|].
    rewrite (Hcol c _ Hh'). f_equal.
    destruct h0 as [|a h0]; cbn [truthy app]; [by rewrite Htx|done]. }
  exists hs0, ps0, h0, p0, hs, ps, hs', ps', headers.
  split_and!; try done.
  intros ->. rewrite merge_layers_le in E0 by lia. injection E0 as <- <-.
  apply lookup_replicate in Hh0 as [-> _].
  apply lookup_replicate in Hp0 as [-> _].
  split_and!; try done. by rewrite Hfirst.
Qed.

Lemma equal_text_joined_once_witness :
  ∃ hs0 ps0 h0 p0 hs ps hs' ps' headers,
    merge_layers [[u "A"; u "B"]; [[]; u "C"]; [u " A "; u "D"]] 0 2
    = Returns (hs0, ps0)
    ∧ hs0 !! 0 = Some h0 ∧ ps0 !! 0 = Some p0
    ∧ merge_layers [[u "A"; u "B"]; [[]; u "C"]; [u " A "; u "D"]] 1 2
      = Returns (hs, ps)
    ∧ hs !! 0 = Some (if decide (p0 = Some (strip (u "A"))) then h0
                      else if truthy h0 then h0 ++ u " > " ++ strip (u "A")
                           else strip (u "A"))
    ∧ merge_layers [[u "A"; u "B"]; [[]; u "C"]; [u " A "; u "D"]] 3 2
      = Returns (hs', ps')
    ∧ hs' !! 0 = hs !! 0
    ∧ ps' !! 0 = Some (Some (strip (u "A")))
    ∧ flatten [[u "A"; u "B"]; [[]; u "C"]; [u " A "; u "D"]] 3 2
      = Returns headers
    ∧ (p0 ≠ Some (strip (u "A")) →
       headers !! 0 = Some (if truthy h0 then h0 ++ u " > " ++ strip (u "A")
                            else strip (u "A")))
    ∧ (0 = 0 → h0 = [] ∧ p0 = None ∧ headers !! 0 = Some (strip (u "A"))).
Proof.
  apply (equal_text_joined_once
           [[u "A"; u "B"]; [[]; u "C"]; [u " A "; u "D"]] 2 0 2 0
           [u "A"; u "B"] [u " A "; u "D"] (u "A") (u " A ")).
  - repeat constructor.
  - lia.
  - reflexivity.
  - reflexivity.
  - reflexivity.
  - reflexivity.
  - reflexivity.
  - discriminate.
  - intros j H1 H2. replace j with 1 by lia. reflexivity.
Defined.

(** The same on whole tables: no [rowspan], equal texts, one of them after
    a blank layer. *)
Example equal_headers_without_rowspan :
  _table_to_markdown
    [[Cell (u "A") 1 1 true]; [Cell (u "A") 1 1 true];
     [Cell (u "1") 1 1 false]]
  = Returns (u "| A |" ++ nl ++ u "| :--- |" ++ nl ++ u "| 1 |")
  ∧ _table_to_markdown
      [[Cell (u "A") 1 1 true; Cell (u "B") 1 1 true];
       [Cell [] 1 1 true; Cell (u "C") 1 1 true];
       [Cell (u "A") 1 1 true; Cell (u "D") 1 1 true];
       [Cell (u "1") 1 1 false; Cell (u "2") 1 1 false]]
    = Returns (u "| A | B > C > D |" ++ nl ++ u "| :--- | :--- |" ++ nl
               ++ u "| 1 | 2 |").
Proof. split; vm_compute; reflexivity. Qed.

(** [_flatten_header_layers] of main.py runs the same statements, with the
    length of the first row for [cols]; what is proved of [merge_layers]
    and [flatten] above holds of it. *)
Lemma main_flatten_header_layers first rest header_layers :
  Main._flatten_header_layers (first :: rest) header_layers
  = flatten (first :: rest) header_layers (length first).
Proof. reflexivity. Qed.

(** ** main.py ends too *)

Lemma foldM_not_diverges {A B} (f : A → B → res A) (l : list B) (a : A) :
  (∀ a x, f a x ≠ Diverges) → foldM f a l ≠ Diverges.
Proof.
  intros Hf. revert a. induction l as [|x l IH]; intros a; simpl; [done|].
  pose proof (Hf a x). destruct (f a x); simpl; [apply IH|done..].
Qed.

Lemma main_span_value_not_diverges key cell :
  Main.span_value key cell ≠ Diverges.
Proof.
  unfold Main.span_value. destruct cell as [|name attrs ch]; [done|].
  destruct (attrs !! key) as [v|]; [|done].
  destruct (truthy v); [|done].
  by destruct (int_cases (Some v)) as [[n ->]|[e ->]].
Qed.

Lemma main_place_cell_not_diverges r_idx st cell :
  Main.place_cell r_idx st cell ≠ Diverges.
Proof.
  unfold Main.place_cell.
  pose proof (main_span_value_not_diverges (u "rowspan") cell).
  destruct (Main.span_value (u "rowspan") cell) as [rs| |]; simpl; [|done..].
  pose proof (main_span_value_not_diverges (u "colspan") cell).
  destruct (Main.span_value (u "colspan") cell) as [cs| |]; simpl; [|done..].
  by destruct (place_returns r_idx st
                 (_normalize_text (Main.get_text nl cell)) rs cs) as [? ->].
Qed.

Lemma main_grid_not_diverges table :
  Main._build_grid_with_spans table ≠ Diverges.
Proof.
  unfold Main._build_grid_with_spans, expand, expand_rows. intros Hd.
  destruct (foldM _ _ _) as [[[g c] m]| |] eqn:E; [done..|].
  revert E. apply foldM_not_diverges.
  intros [[g c] m] ir. unfold expand_step, expand_row.
  destruct (place_reserved_returns (size c) (Z.of_nat ir.1) 0 c [])
    as (c' & carry' & rv' & -> & _); [done|]. rewrite bind_Returns.
  pose proof (foldM_not_diverges (Main.place_cell (Z.of_nat ir.1)) ir.2
                (c', carry', rv')
                (main_place_cell_not_diverges (Z.of_nat ir.1))).
  by destruct (foldM _ _ ir.2) as [[[? ?] ?]| |].
Qed.

(** [html_table_to_flat_markdown] returns or raises. *)
Lemma html_table_to_flat_markdown_ends html :
  Main.html_table_to_flat_markdown html ≠ Diverges.
Proof.
  unfold Main.html_table_to_flat_markdown.
  destruct (Main.find_table _) as [table|]; [|done].
  pose proof (main_grid_not_diverges table).
  destruct (Main._build_grid_with_spans table) as [grid| |] eqn:E;
    simpl; [|done..].
  apply main_grid_rectangular in E as [cols Hrect].
  destruct grid as [|first rest]; [done|].
  rewrite main_flatten_header_layers.
  assert (length first = cols) as -> by (by apply Forall_cons in Hrect as [? _]).
  destruct (merge_layers_returns (first :: rest)
              (Main._count_header_layers table) cols Hrect)
    as (hs & ps & Em & Hhs & _).
  by destruct (flatten_spec _ _ _ _ _ Em Hhs) as (headers & -> & _).
Qed.

(** * Further properties of the code *)

(** ** What [replace_tables_in_place] can raise *)

(** X3.  [handle_endtag] is the only handler that raises, and it raises in
    one state only: a [</td>] or [</th>] while a cell is open and no row
    is, which is what [</tr>] leaves when it comes before the end of the
    cell.  The exception is [AttributeError]. *)
Theorem handle_raises_iff self ev e :
  handle self ev = Raises e ↔
  e = AttributeError
  ∧ ∃ tag, ev = EndTag tag ∧ is_td_th (lower tag) = true
           ∧ is_Some (_cur_cell self) ∧ _cur_row self = None.
Proof.
  split.
  - destruct ev as [tag attrs|tag|data]; simpl.
    + by destruct (handle_starttag_returns self tag attrs) as [? ->].
    + unfold handle_endtag. destruct (is_td_th (lower tag)) eqn:Etd.
      * destruct (_cur_cell self) as [c|] eqn:Ec; [|done].
        destruct (_cur_row self) eqn:Er; [done|]. intros [= <-].
        split; [done|]. exists tag. split_and!; eauto.
      * destruct (decide (lower tag = u "tr")); [done|].
        by destruct (decide (lower tag = u "table")).
    + unfold handle_data. by destruct (_cur_cell self).
  - intros (-> & tag & -> & Htd & [c Hc] & Hr). simpl. unfold handle_endtag.
    by rewrite Htd, Hc, Hr.
Qed.

Lemma table_html_to_markdown_raises table_html e :
  table_html_to_markdown table_html = Raises e →
  feed init table_html = Raises e.
Proof.
  unfold table_html_to_markdown.
  destruct (feed init table_html) as [parser|e'|] eqn:E; simpl; [| |done].
  - destruct (tables parser) as [|t ?]; [done|].
    by destruct (_table_to_markdown_returns t) as [md ->].
  - by intros [= <-].
Qed.

Lemma scan_raises fuel html lw pos acc e :
  scan fuel html lw pos acc = Raises e →
  ∃ region, located html lw region
            ∧ table_html_to_markdown region = Raises e.
Proof.
  revert pos acc. induction fuel as [|fuel IH]; intros pos acc; [done|].
  simpl. destruct (find (u "<table") lw pos) as [start|] eqn:E1; [|done].
  destruct (find (u ">") lw start) as [gt|] eqn:E2; [|done].
  destruct (find end_tag lw (gt + 1)) as [end_|] eqn:E3; [|done].
  destruct (table_html_to_markdown _) as [md|e'|] eqn:E; simpl; [| |done].
  - apply IH.
  - intros [= <-]. eexists. split; [|exact E].
    destruct (scan_offsets _ _ _ _ _ E1 E2 E3) as (_ & ? & ? & _).
    apply find_Some in E1 as (_ & _ & H1 & _).
    apply find_Some in E3 as (_ & _ & H3 & _).
    exists start, end_. split_and!; [done|lia|done..].
Qed.

Lemma replace_tables_in_place_raises html e :
  replace_tables_in_place html = Raises e →
  ∃ h region,
    html = Some h ∧ located h (lower h) region
    ∧ feed init region = Raises e.
Proof.
  unfold replace_tables_in_place.
  destruct html as [html|]; [|done]. destruct (truthy html); [|done].
  cbn [negb]. destruct (scan _ _ _ _ _) as [parts|e'|] eqn:Es; [done| |done].
  intros [= <-]. apply scan_raises in Es as (region & Hloc & E).
  exists html, region. split_and!; try done.
  by apply table_html_to_markdown_raises.
Qed.

(** X1.  On every input [replace_tables_in_place] comes to an end, and it
    raises nothing of its own: an exception that leaves it is one that
    [parser.feed] raised for a region the loop cut out, [html[start:end+8]]
    at offsets where [lower] has [<table] and [</table>].  The loop, the
    test of [parser.tables] and [_table_to_markdown] raise nothing (no
    [IndexError] from the grid or the header lists). *)
Theorem exceptions_come_from_feed html :
  (∃ out, replace_tables_in_place html = Returns out)
  ∨ ∃ e h region,
      html = Some h
      ∧ located h (lower h) region
      ∧ feed init region = Raises e
      ∧ replace_tables_in_place html = Raises e.
Proof.
  pose proof (replace_tables_in_place_ends html) as Hends.
  destruct (replace_tables_in_place html) as [out|e|] eqn:E; [eauto| |done].
  right. destruct (replace_tables_in_place_raises _ _ E)
    as (h & region & ? & ? & ?).
  by exists e, h, region.
Qed.

(** X4.  Whatever [replace_tables_in_place] returns is the input cut into
    consecutive pieces, each copied as it is or cut out at offsets where
    [lower] has [<table] and [</table>] and replaced by what
    [table_html_to_markdown] returns for it; nothing is reordered and no
    piece is dropped. *)
Theorem result_is_pieces html out :
  replace_tables_in_place (Some html) = Returns out →
  ∃ pieces : list piece,
    concat (source <$> pieces) = html
    ∧ out = concat (output <$> pieces)
    ∧ Forall (cut_at html (lower html)) pieces.
Proof. apply replace_tables_in_place_partition. Qed.

Lemma result_is_pieces_witness :
  ∃ pieces : list piece,
    concat (source <$> pieces) = u "a<table></table>b"
    ∧ u "a|  |" ++ nl ++ u "|  |b" = concat (output <$> pieces)
    ∧ Forall (cut_at (u "a<table></table>b") (lower (u "a<table></table>b")))
             pieces.
Proof.
  apply (result_is_pieces (u "a<table></table>b")). vm_compute. reflexivity.
Defined.

(** X5.  For a text without U+0130 every piece that is replaced is a table
    region: it starts with [<table] and ends with [</table>] (in any mix of
    cases), and the rest of the text is where it was. *)
Theorem plain_text_regions_are_tables html out :
  Forall (fun c => c ≠ 304%N) html →
  replace_tables_in_place (Some html) = Returns out →
  ∃ pieces : list piece,
    concat (source <$> pieces) = html
    ∧ out = concat (output <$> pieces)
    ∧ Forall table_region pieces.
Proof. apply replace_tables_in_place_frame. Qed.

Lemma plain_text_regions_are_tables_witness :
  ∃ pieces : list piece,
    concat (source <$> pieces) = u "a<TABLE></table>b"
    ∧ u "a|  |" ++ nl ++ u "|  |b" = concat (output <$> pieces)
    ∧ Forall table_region pieces.
Proof.
  apply (plain_text_regions_are_tables (u "a<TABLE></table>b")).
  - repeat constructor; discriminate.
  - vm_compute. reflexivity.
Defined.

(** X6.  When the first [<table] of the text is followed by no [>], or by
    no [</table>] after that [>], the text is returned as it is. *)
Theorem unclosed_table_unchanged html start :
  find (u "<table") (lower html) 0 = Some start →
  find (u ">") (lower html) start = None
  ∨ (∃ gt, find (u ">") (lower html) start = Some gt
           ∧ find end_tag (lower html) (gt + 1) = None) →
  replace_tables_in_place (Some html) = Returns html.
Proof.
  intros E1 H. unfold replace_tables_in_place.
  destruct (truthy html) eqn:Et; cbn [negb]; [|by destruct html].
  destruct (scan_unclosed (length (lower html)) html (lower html) 0 start []
              E1 H) as [-> Hcat].
  rewrite bind_Returns. simpl. rewrite app_nil_r.
  by rewrite Hcat, drop_0.
Qed.

Lemma unclosed_table_unchanged_witness :
  replace_tables_in_place (Some (u "a <Table border=1><tr><td>1</td></tr>"))
  = Returns (u "a <Table border=1><tr><td>1</td></tr>").
Proof.
  apply (unclosed_table_unchanged _ 2).
  - reflexivity.
  - right. exists 17. split; reflexivity.
Defined.

(** ** What [TableParser] keeps *)

Lemma handle_tables_prefix self ev self' :
  handle self ev = Returns self' → tables self `prefix_of` tables self'.
Proof.
  destruct ev as [tag attrs|tag|data]; simpl.
  - unfold handle_starttag.
    destruct (decide (lower tag = u "table")); [by intros [= <-]|].
    destruct (decide (lower tag = u "tr"));
      [by destruct (_cur_table self); intros [= <-]|].
    destruct (is_td_th (lower tag)); [|by intros [= <-]].
    destruct (_cur_row self); [|by intros [= <-]].
    rewrite span_attrs_spec. by intros [= <-].
  - unfold handle_endtag. destruct (is_td_th (lower tag)).
    + destruct (_cur_cell self); [|by intros [= <-]].
      destruct (_cur_row self); [by intros [= <-]|done].
    + destruct (decide (lower tag = u "tr")); [by intros [= <-]|].
      destruct (decide (lower tag = u "table")); [|by intros [= <-]].
      intros [= <-]. simpl. destruct (_cur_table self); [|done].
      by apply prefix_app_r.
  - unfold handle_data. by destruct (_cur_cell self); intros [= <-].
Qed.

(** X7.  The first table that is completed is the one that is converted:
    whatever events follow (text, further or nested tables, stray end
    tags), as long as none raises, [parser.tables[0]] stays what it was. *)
Theorem first_table_wins evs1 evs2 p1 p2 t ts :
  foldM handle init evs1 = Returns p1 → tables p1 = t :: ts →
  foldM handle init (evs1 ++ evs2) = Returns p2 →
  head (tables p2) = Some t.
Proof.
  intros E1 Ht E2. rewrite foldM_app, E1, bind_Returns in E2.
  assert (tables p1 `prefix_of` tables p2) as [k Hk].
  { eapply (foldM_invariant (fun p => tables p1 `prefix_of` tables p));
      [|done|exact E2].
    intros a x a' Ha Hx. etrans; [exact Ha|]. by eapply handle_tables_prefix. }
  by rewrite Hk, Ht.
Qed.

Lemma first_table_wins_witness :
  head (tables {| tables := [[[Cell (u "a") 1 1 false]]; []];
                  _cur_table := None; _cur_row := None; _cur_cell := None;
                  _cell_text := u "a" |})
  = Some [[Cell (u "a") 1 1 false]].
Proof.
  apply (first_table_wins
           (events (u "<table><tr><td>a</td></tr></table>"))
           (events (u "x<table></table></td>"))
           {| tables := [[[Cell (u "a") 1 1 false]]];
              _cur_table := None; _cur_row := None; _cur_cell := None;
              _cell_text := u "a" |} _ _ []);
    vm_compute; reflexivity.
Defined.

Lemma lstrip_suffix s : ∃ k, s = k ++ lstrip s.
Proof.
  induction s as [|c s [k IH]]; [by exists []|]. simpl.
  destruct (isspace c); [|by exists []].
  exists (c :: k). simpl. by f_equal.
Qed.

Lemma lstrip_head s c : head (lstrip s) = Some c → isspace c = false.
Proof.
  induction s as [|d s IH]; simpl; [done|].
  destruct (isspace d) eqn:E; [done|]. simpl. by intros [= <-].
Qed.

Lemma rstrip_prefix s : ∃ k, s = rstrip s ++ k.
Proof.
  unfold rstrip. destruct (lstrip_suffix (reverse s)) as [k Hk].
  exists (reverse k).
  by rewrite <-reverse_app, <-Hk, reverse_involutive.
Qed.

Lemma rstrip_last s c : last (rstrip s) = Some c → isspace c = false.
Proof. unfold rstrip. rewrite last_reverse. apply lstrip_head. Qed.

(** [strip] leaves no white space at either end. *)
Lemma strip_trimmed s : trimmed (strip s).
Proof.
  unfold strip. split.
  - intros c Hc. apply (lstrip_head s).
    destruct (rstrip_prefix (lstrip s)) as [k Hk].
    rewrite Hk. destruct (rstrip (lstrip s)); [done|]. done.
  - apply rstrip_last.
Qed.

Lemma handle_cells_trimmed self ev self' :
  cells_trimmed self → handle self ev = Returns self' → cells_trimmed self'.
Proof.
  intros H. pose proof H as (Ht & Htb & Hr).
  destruct ev as [tag attrs|tag|data]; simpl.
  - unfold handle_starttag.
    destruct (decide (lower tag = u "table")).
    { intros [= <-]. split_and!; simpl; try done. by intros ? [= <-]. }
    destruct (decide (lower tag = u "tr")).
    { destruct (_cur_table self) eqn:E; intros [= <-]; [|exact H].
      split_and!; simpl; try done. by intros ? [= <-]. }
    destruct (is_td_th (lower tag)); [|intros [= <-]; exact H].
    destruct (_cur_row self) eqn:E; [|intros [= <-]; exact H].
    rewrite span_attrs_spec. simpl. intros [= <-].
    by split_and!.
  - unfold handle_endtag. destruct (is_td_th (lower tag)).
    + destruct (_cur_cell self) as [c|]; [|intros [= <-]; exact H].
      destruct (_cur_row self) as [r|] eqn:E; [|done]. intros [= <-].
      split_and!; simpl; try done. intros ? [= <-].
      apply Forall_app. split; [auto|]. constructor; [|done].
      apply strip_trimmed.
    + destruct (decide (lower tag = u "tr")).
      { intros [= <-]. split_and!; simpl; try done.
        destruct (_cur_table self) as [tb|] eqn:E1; [|done].
        destruct (_cur_row self) as [r|] eqn:E2; intros ? [= <-]; [|auto].
        apply Forall_app. split; [auto|]. constructor; [auto|done]. }
      destruct (decide (lower tag = u "table")); [|intros [= <-]; exact H].
      intros [= <-]. split_and!; simpl; try done.
      destruct (_cur_table self) as [tb|] eqn:E1; [|done].
      apply Forall_app. split; [done|]. constructor; [auto|done].
  - unfold handle_data. destruct (_cur_cell self); intros [= <-];
      [|exact H]. by split_and!.
Qed.

(** X8.  The text of every cell of every table that the parser completes
    has no white space at its ends, whatever the events fed to it. *)
Theorem parsed_cells_trimmed evs parser :
  foldM handle init evs = Returns parser →
  Forall (Forall (Forall (fun c => trimmed (text c)))) (tables parser).
Proof.
  intros E.
  apply (foldM_invariant cells_trimmed handle evs init parser); [| |done].
  - intros a x a' Ha Hx. by eapply handle_cells_trimmed.
  - by split_and!.
Qed.

Lemma parsed_cells_trimmed_witness :
  Forall (Forall (Forall (fun c => trimmed (text c))))
         [[[Cell (u "a  b") 1 1 true]]].
Proof.
  apply (parsed_cells_trimmed
           (events (u "<table><tr><th>  a  b </th></tr></table>"))
           {| tables := [[[Cell (u "a  b") 1 1 true]]];
              _cur_table := None; _cur_row := None; _cur_cell := None;
              _cell_text := u "  a  b " |}).
  vm_compute. reflexivity.
Defined.

(** ** The carry map *)

(** X9.  The loop over [carry] takes the reserved values of the row from
    column [c_idx] on, as far as they are consecutive: it appends them to
    [row_vals] in order, moves [c_idx] past them, removes their keys from
    [carry], leaves every other key as it is, and stops at the first column
    that is not reserved. *)
Theorem place_reserved_takes_run (fuel : nat) (r_idx c_idx : Z)
    (carry : gmap (Z * Z) str) (row_vals : list str) :
  size carry ≤ fuel →
  ∃ vals carry',
    place_reserved fuel r_idx c_idx carry row_vals
    = Returns ((c_idx + Z.of_nat (length vals))%Z, carry', row_vals ++ vals)
    ∧ (∀ (i : nat) v, vals !! i = Some v →
         carry !! (r_idx, (c_idx + Z.of_nat i)%Z) = Some v)
    ∧ carry !! (r_idx, (c_idx + Z.of_nat (length vals))%Z) = None
    ∧ ∀ k : Z * Z,
        carry' !! k
        = if decide (k.1 = r_idx
                     ∧ (c_idx ≤ k.2 < c_idx + Z.of_nat (length vals))%Z)
          then None else carry !! k.
Proof.
  revert c_idx carry row_vals.
  induction fuel as [|fuel IH]; intros c_idx carry row_vals Hsize.
  - assert (carry = ∅) as -> by (apply map_size_empty_inv; lia).
    exists [], ∅. simpl. rewrite lookup_empty, Z.add_0_r, app_nil_r.
    split_and!; try done. intros k. rewrite lookup_empty. by case_decide.
  - simpl. destruct (carry !! (r_idx, c_idx)) as [v|] eqn:E.
    + destruct (IH (c_idx + 1)%Z (delete (r_idx, c_idx) carry)
                  (row_vals ++ [v])) as (vals & carry' & -> & Hv & Hend & Hk).
      { rewrite map_size_delete_Some by eauto. lia. }
      exists (v :: vals), carry'. split_and!.
      * rewrite <-app_assoc. simpl. do 3 f_equal. lia.
      * intros [|i] w Hw; simpl in Hw.
        -- injection Hw as <-. rewrite Z.add_0_r. exact E.
        -- apply Hv in Hw. apply lookup_delete_Some in Hw as [_ Hw].
           rewrite <-Hw. do 2 f_equal. lia.
      * apply lookup_delete_None in Hend as [Hend|Hend]; [injection Hend; lia|].
        rewrite <-Hend. do 2 f_equal. simpl. lia.
      * intros k. rewrite Hk.
        change (length (v :: vals)) with (S (length vals)).
        destruct (decide (k = (r_idx, c_idx))) as [->|Hne].
        -- rewrite lookup_delete_eq. cbn [fst snd].
           repeat case_decide; try done; exfalso; lia.
        -- rewrite lookup_delete_ne by done. destruct k as [k1 k2].
           cbn [fst snd].
           repeat case_decide; try done; exfalso; [lia|].
           destruct_and!. subst k1.
           assert (k2 = c_idx) as -> by lia. done.
    + exists [], carry. simpl. rewrite Z.add_0_r, app_nil_r.
      split_and!; try done. intros k. case_decide; [lia|done].
Qed.

Lemma place_reserved_takes_run_witness :
  ∃ vals carry',
    place_reserved 3 1 0 {[ (1, 0)%Z := u "a"; (1, 1)%Z := []; (1, 3)%Z := u "b" ]} [u "x"]
    = Returns ((0 + Z.of_nat (length vals))%Z, carry', [u "x"] ++ vals)
    ∧ (∀ (i : nat) v, vals !! i = Some v →
         ({[ (1, 0)%Z := u "a"; (1, 1)%Z := []; (1, 3)%Z := u "b" ]}
            : gmap (Z * Z) str) !! (1%Z, (0 + Z.of_nat i)%Z) = Some v)
    ∧ ({[ (1, 0)%Z := u "a"; (1, 1)%Z := []; (1, 3)%Z := u "b" ]}
         : gmap (Z * Z) str) !! (1%Z, (0 + Z.of_nat (length vals))%Z) = None
    ∧ ∀ k : Z * Z,
        carry' !! k
        = if decide (k.1 = 1%Z ∧ (0 ≤ k.2 < 0 + Z.of_nat (length vals))%Z)
          then None
          else ({[ (1, 0)%Z := u "a"; (1, 1)%Z := []; (1, 3)%Z := u "b" ]}
                  : gmap (Z * Z) str) !! k.
Proof.
  apply (place_reserved_takes_run 3 1 0
           {[ (1, 0)%Z := u "a"; (1, 1)%Z := []; (1, 3)%Z := u "b" ]} [u "x"]).
  vm_compute. lia.
Defined.

Lemma reserve_row_lookup (carry : gmap (Z * Z) str) (i left : Z)
    (text : str) (l : list Z) (k : Z * Z) :
  foldl (fun carry dc =>
           <[(i, left + dc)%Z := if (dc =? 0)%Z then text else []]> carry)
        carry l !! k
  = if decide (k.1 = i ∧ (k.2 - left)%Z ∈ l)
    then Some (if decide (k.2 = left) then text else [])
    else carry !! k.
Proof.
  revert carry. induction l as [|dc l IH]; intros carry; simpl.
  - destruct (decide (k.1 = i ∧ (k.2 - left)%Z ∈ [])) as [[_ H]|_]; [|done].
    by apply elem_of_nil in H.
  - rewrite IH. destruct k as [k1 k2]. cbn [fst snd].
    destruct (decide (k1 = i ∧ (k2 - left)%Z ∈ l)) as [[Hk1 Hin]|Hnot];
      destruct (decide (k1 = i ∧ (k2 - left)%Z ∈ dc :: l)) as [[Hk Hin']|Hnot'];
      try done.
    + exfalso. apply Hnot'. split; [done|]. by right.
    + subst k1. apply elem_of_cons in Hin' as [Heq|Hin']; [|tauto].
      assert (k2 = (left + dc)%Z) as -> by lia.
      rewrite lookup_insert_eq. f_equal.
      destruct (Z.eqb_spec dc 0);
        destruct (decide ((left + dc)%Z = left)); try done; exfalso; lia.
    + rewrite lookup_insert_ne; [done|]. intros [= <- <-]. apply Hnot'.
      split; [done|]. apply elem_of_cons. left. lia.
Qed.

(** X10.  What a cell with [rowspan > 1] reserves: after the two loops
    [carry] holds, at every position of the [rs - 1] rows below and the
    [cs] columns of the cell, the text of the cell in the leftmost column
    and the empty string in the others; every other key is as before. *)
Theorem reserve_lookup (carry : gmap (Z * Z) str) (r_idx left rs cs : Z)
    (text : str) (i j : Z) :
  reserve carry r_idx left rs cs text !! (i, j)
  = if decide ((r_idx < i < r_idx + rs)%Z ∧ (left ≤ j < left + cs)%Z)
    then Some (if decide (j = left) then text else [])
    else carry !! (i, j).
Proof.
  assert (∀ (L : list Z) (carry : gmap (Z * Z) str),
    foldl (fun carry dr =>
             foldl (fun carry dc =>
                      <[(r_idx + dr, left + dc)%Z :=
                          if (dc =? 0)%Z then text else []]> carry)
                   carry (range 0 cs))
          carry L !! (i, j)
    = if decide ((i - r_idx)%Z ∈ L ∧ (j - left)%Z ∈ range 0 cs)
      then Some (if decide (j = left) then text else [])
      else carry !! (i, j)) as Hrows.
  { induction L as [|dr L IH]; intros m; simpl.
    - destruct (decide ((i - r_idx)%Z ∈ [] ∧ (j - left)%Z ∈ range 0 cs))
        as [[H _]|_]; [|done].
      by apply elem_of_nil in H.
    - rewrite IH, reserve_row_lookup. cbn [fst snd].
      destruct (decide ((i - r_idx)%Z ∈ L ∧ (j - left)%Z ∈ range 0 cs))
        as [[Hi Hj]|Hnot];
        destruct (decide ((i - r_idx)%Z ∈ dr :: L
                          ∧ (j - left)%Z ∈ range 0 cs)) as [[Hi' Hj']|Hnot'];
        try done.
      + exfalso. apply Hnot'. split; [by right|done].
      + apply elem_of_cons in Hi' as [Heq|Hi']; [|tauto].
        rewrite decide_True; [done|]. split; [lia|done].
      + rewrite decide_False; [done|]. intros [-> Hj]. apply Hnot'.
        split; [|done]. apply elem_of_cons. left. lia. }
  unfold reserve. rewrite Hrows. unfold range.
  destruct (decide ((r_idx < i < r_idx + rs)%Z ∧ (left ≤ j < left + cs)%Z))
    as [H|H];
    destruct (decide ((i - r_idx)%Z ∈ seqZ 1 (rs - 1)
                      ∧ (j - left)%Z ∈ seqZ 0 (cs - 0))) as [H'|H'];
    try done; exfalso; rewrite !elem_of_seqZ in H'; lia.
Qed.

(** ** Rows without [rowspan] *)

Lemma place_cell_without_rowspan r_idx (c : cell) c_idx row_vals :
  (rowspan c ≤ 1)%Z →
  place_cell r_idx (c_idx, ∅, row_vals) c
  = Returns ((c_idx + colspan c)%Z, ∅, row_vals ++ cell_values c).
Proof.
  intros Hc. unfold place_cell, place.
  destruct (Z.ltb_spec 1 (rowspan c)); [lia|].
  rewrite map_size_empty. cbn [place_reserved]. by rewrite lookup_empty.
Qed.

Lemma place_cells_without_rowspan r_idx (r : row) c_idx row_vals :
  Forall (fun c => (rowspan c ≤ 1)%Z) r →
  ∃ c', foldM (place_cell r_idx) (c_idx, ∅, row_vals) r
        = Returns (c', ∅, row_vals ++ row_values r).
Proof.
  revert c_idx row_vals.
  induction r as [|c r IH]; intros c_idx row_vals Hr.
  - exists c_idx. unfold row_values. simpl. by rewrite app_nil_r.
  - apply Forall_cons in Hr as [Hc Hr]. cbn [foldM].
    rewrite place_cell_without_rowspan, bind_Returns by done.
    destruct (IH (c_idx + colspan c)%Z (row_vals ++ cell_values c) Hr)
      as [c' ->].
    exists c'. unfold row_values. rewrite fmap_cons. simpl concat.
    by rewrite <-!app_assoc.
Qed.

Lemma expand_step_without_rowspan (i : nat) (r : row) grid max_cols :
  Forall (fun c => (rowspan c ≤ 1)%Z) r →
  expand_step place_cell (grid, ∅, max_cols) (i, r)
  = Returns (grid ++ [row_values r], ∅,
             Nat.max max_cols (length (row_values r))).
Proof.
  intros Hr. unfold expand_step, expand_row. cbn [fst snd].
  rewrite map_size_empty. cbn [place_reserved]. rewrite lookup_empty.
  cbn [mret res_ret]. rewrite bind_Returns.
  by destruct (place_cells_without_rowspan (Z.of_nat i) r 0 [] Hr) as [c' ->].
Qed.

Lemma expand_loop_without_rowspan (l : list (nat * row)) grid max_cols :
  Forall (fun ir => Forall (fun c => (rowspan c ≤ 1)%Z) ir.2) l →
  ∃ max_cols',
    foldM (expand_step place_cell) (grid, ∅, max_cols) l
    = Returns (grid ++ (row_values ∘ snd <$> l), ∅, max_cols').
Proof.
  revert grid max_cols.
  induction l as [|[i r] l IH]; intros grid max_cols Hl.
  - exists max_cols. simpl. by rewrite app_nil_r.
  - apply Forall_cons in Hl as [Hr Hl]. cbn [foldM].
    rewrite expand_step_without_rowspan, bind_Returns by done.
    destruct (IH (grid ++ [row_values r])
                (Nat.max max_cols (length (row_values r))) Hl) as [m' ->].
    exists m'. rewrite fmap_cons, <-app_assoc. reflexivity.
Qed.

(** X11.  In a table where no cell has [rowspan > 1] every row of the grid
    is made of its own cells only, in order: the text of each cell, with
    [\n] written [<br>], followed by [colspan - 1] empty strings (none when
    [colspan] is 1 or less), then padded to the longest row. *)
Theorem grid_without_rowspan (t : table) :
  Forall (Forall (fun c => (rowspan c ≤ 1)%Z)) t →
  expand place_cell t
  = Returns (pad (max_list (length <$> (row_values <$> t)))
               <$> (row_values <$> t),
             max_list (length <$> (row_values <$> t))).
Proof.
  intros Ht.
  assert (∃ m, expand_rows place_cell t = Returns (row_values <$> t, m))
    as [m E].
  { unfold expand_rows.
    destruct (expand_loop_without_rowspan (imap pair t) [] 0) as [m ->].
    - apply Forall_forall. intros [i r] Hir.
      apply elem_of_lookup_imap in Hir as (j & y & [= -> ->] & Hy).
      by eapply Forall_lookup_1.
    - exists m. rewrite bind_Returns. cbv beta iota. rewrite app_nil_l.
      do 2 f_equal.
      apply list_eq. intros i. rewrite !list_lookup_fmap, list_lookup_imap.
      by destruct (t !! i). }
  unfold expand. rewrite E, bind_Returns.
  by apply expand_rows_spec in E as [_ ->].
Qed.

Lemma grid_without_rowspan_witness :
  expand place_cell
    [[Cell (u "A") 1 3 true; Cell (u "B") 0 0 true];
     [Cell (u "1" ++ nl ++ u "2") 1 1 false]]
  = Returns ([[u "A"; []; []; u "B"]; [u "1<br>2"; []; []; []]], 4).
Proof.
  apply (grid_without_rowspan
           [[Cell (u "A") 1 3 true; Cell (u "B") 0 0 true];
            [Cell (u "1" ++ nl ++ u "2") 1 1 false]]).
  repeat constructor; simpl; lia.
Defined.

(** ** The header row *)

(** X12.  The flattened header row of a rectangular grid has one entry per
    column and no entry is empty: a column for which no layer has a
    non-blank value is called [col_<n>]. *)
Theorem flattened_headers_named grid layers cols :
  rectangular cols grid →
  ∃ headers,
    flatten grid layers cols = Returns headers
    ∧ length headers = cols
    ∧ Forall (fun h => h ≠ []) headers.
Proof.
  intros Hrect.
  destruct (merge_layers_returns grid layers cols Hrect)
    as (hs & ps & E & Hhs & _).
  destruct (flatten_spec _ _ _ _ _ E Hhs) as (headers & -> & Hlen & Hcol).
  exists headers. split_and!; try done.
  apply Forall_lookup. intros c x Hx.
  destruct (lookup_lt_is_Some_2 hs c) as [h Hh].
  { apply lookup_lt_Some in Hx. lia. }
  rewrite (Hcol c h Hh) in Hx. injection Hx as <-.
  by destruct h.
Qed.

Lemma flattened_headers_named_witness :
  ∃ headers,
    flatten [[u "A"; []; u " "]; [u "1"; u "2"; u "3"]] 1 3 = Returns headers
    ∧ length headers = 3
    ∧ Forall (fun h => h ≠ []) headers.
Proof.
  apply (flattened_headers_named [[u "A"; []; u " "]; [u "1"; u "2"; u "3"]]).
  repeat constructor.
Defined.

(** X13.  Without a header layer (the first row has no [th], or the grid
    has no row) every column is called [col_<n>], counted from 1. *)
Theorem unnamed_columns_numbered grid layers cols :
  Nat.min layers (length grid) = 0 →
  ∃ headers,
    flatten grid layers cols = Returns headers
    ∧ length headers = cols
    ∧ ∀ c, c < cols → headers !! c = Some (u "col_" ++ str_of_nat (c + 1)).
Proof.
  intros Hmin.
  assert (merge_layers grid layers cols
          = Returns (replicate cols [], replicate cols None)) as E.
  { unfold merge_layers. by rewrite Hmin. }
  destruct (flatten_spec _ _ _ _ _ E (length_replicate _ _))
    as (headers & -> & Hlen & Hcol).
  exists headers. split_and!; try done.
  intros c Hc. by rewrite (Hcol c []) by by apply lookup_replicate_2.
Qed.

Lemma unnamed_columns_numbered_witness :
  ∃ headers,
    flatten [[u "1"; u "2"]] 0 2 = Returns headers
    ∧ length headers = 2
    ∧ ∀ c, c < 2 → headers !! c = Some (u "col_" ++ str_of_nat (c + 1)).
Proof.
  apply (unnamed_columns_numbered [[u "1"; u "2"]] 0 2). reflexivity.
Defined.

(** X14.  The header layers are the rows before the first row that has no
    header cell: a row with one [th] among [td]s counts, and a row of [th]s
    that comes after a row without any is a body row. *)
Theorem header_layers_leading (hs : table) (r : row) (rest : table) :
  Forall (fun r => existsb is_header r = true) hs →
  existsb is_header r = false →
  header_layers (hs ++ r :: rest) = length hs
  ∧ header_layers hs = length hs.
Proof.
  intros Hhs Hr. induction Hhs as [|h hs Hh _ [IH1 IH2]]; simpl.
  - by rewrite Hr.
  - by rewrite Hh, IH1, IH2.
Qed.

Lemma header_layers_leading_witness :
  header_layers
    ([[Cell (u "A") 1 1 true; Cell (u "x") 1 1 false]]
     ++ [Cell (u "1") 1 1 false] :: [[Cell (u "B") 1 1 true]])
  = length [[Cell (u "A") 1 1 true; Cell (u "x") 1 1 false]]
  ∧ header_layers [[Cell (u "A") 1 1 true; Cell (u "x") 1 1 false]]
    = length [[Cell (u "A") 1 1 true; Cell (u "x") 1 1 false]].
Proof.
  apply (header_layers_leading
           [[Cell (u "A") 1 1 true; Cell (u "x") 1 1 false]]
           [Cell (u "1") 1 1 false] [[Cell (u "B") 1 1 true]]).
  - repeat constructor.
  - reflexivity.
Defined.

(** ** Line breaks *)

Lemma replace_app old new s1 s2 :
  replace old new (s1 ++ s2) = replace old new s1 ++ replace old new s2.
Proof. unfold replace. by rewrite map_app, concat_app. Qed.

Lemma normalize_one_line s : one_line (_normalize_text s).
Proof.
  unfold _normalize_text, replace, one_line.
  induction s as [|c s IH]; simpl; [constructor|].
  apply Forall_app. split; [|done].
  destruct (N.eqb_spec c 10); [by repeat constructor|by constructor].
Qed.

Lemma normalize_of_one_line s : one_line s → _normalize_text s = s.
Proof.
  unfold _normalize_text, replace.
  induction 1 as [|c s Hc _ IH]; simpl; [done|].
  rewrite IH. by destruct (N.eqb_spec c 10).
Qed.

(** X15.  [_normalize_text] writes every line break as [<br>] and changes
    nothing else: its result has no line break, a text without line break
    is left as it is (so normalizing twice is normalizing once), and a
    text [a \n b] becomes the two normalized halves around [<br>]. *)
Theorem normalize_text_breaks (a b : str) :
  one_line (_normalize_text a)
  ∧ (one_line a → _normalize_text a = a)
  ∧ _normalize_text (_normalize_text a) = _normalize_text a
  ∧ _normalize_text (a ++ nl ++ b)
    = _normalize_text a ++ u "<br>" ++ _normalize_text b.
Proof.
  split_and!.
  - apply normalize_one_line.
  - apply normalize_of_one_line.
  - apply normalize_of_one_line, normalize_one_line.
  - unfold _normalize_text. by rewrite !replace_app.
Qed.

Lemma normalize_text_breaks_witness :
  _normalize_text (u "a|b") = u "a|b".
Proof.
  apply (proj1 (proj2 (normalize_text_breaks (u "a|b") []))).
  repeat constructor; discriminate.
Defined.

Lemma one_line_app a b : one_line (a ++ b) ↔ one_line a ∧ one_line b.
Proof. apply Forall_app. Qed.

Lemma one_line_nil : one_line [].
Proof. constructor. Qed.

Lemma strip_one_line s : one_line s → one_line (strip s).
Proof.
  intros Hs. unfold strip.
  destruct (lstrip_suffix s) as [k Hk]. rewrite Hk in Hs.
  apply one_line_app in Hs as [_ Hs].
  destruct (rstrip_prefix (lstrip s)) as [k' Hk']. rewrite Hk' in Hs.
  by apply one_line_app in Hs as [Hs _].
Qed.

Lemma place_reserved_one_line (fuel : nat) (r_idx c_idx : Z)
    (carry : gmap (Z * Z) str) (row_vals : list str) c' carry' row_vals' :
  map_Forall (fun _ v => one_line v) carry → Forall one_line row_vals →
  place_reserved fuel r_idx c_idx carry row_vals
  = Returns (c', carry', row_vals') →
  map_Forall (fun _ v => one_line v) carry' ∧ Forall one_line row_vals'.
Proof.
  revert c_idx carry row_vals.
  induction fuel as [|fuel IH]; intros c_idx carry row_vals Hc Hr; simpl;
    destruct (carry !! (r_idx, c_idx)) as [v|] eqn:E; try done.
  - by intros [= <- <- <-].
  - apply IH.
    + by apply map_Forall_delete.
    + apply Forall_app. split; [done|]. constructor; [|done].
      by apply (Hc _ _ E).
  - by intros [= <- <- <-].
Qed.

Lemma reserve_one_line (carry : gmap (Z * Z) str) (r_idx left rs cs : Z)
    (text : str) :
  map_Forall (fun _ v => one_line v) carry → one_line text →
  map_Forall (fun _ v => one_line v) (reserve carry r_idx left rs cs text).
Proof.
  intros Hc Ht. unfold reserve. revert carry Hc.
  induction (range 1 rs) as [|dr L IH]; intros carry Hc; simpl; [done|].
  apply IH. clear IH. revert carry Hc.
  induction (range 0 cs) as [|dc l IH]; intros carry Hc; simpl; [done|].
  apply IH. apply map_Forall_insert_2; [|done].
  destruct (dc =? 0)%Z; [done|apply one_line_nil].
Qed.

Lemma place_one_line (r_idx c_idx : Z) (carry : gmap (Z * Z) str)
    (row_vals : list str) (text : str) (rs cs : Z) c' carry' row_vals' :
  map_Forall (fun _ v => one_line v) carry → Forall one_line row_vals →
  one_line text →
  place r_idx (c_idx, carry, row_vals) text rs cs
  = Returns (c', carry', row_vals') →
  map_Forall (fun _ v => one_line v) carry' ∧ Forall one_line row_vals'.
Proof.
  intros Hc Hr Ht. unfold place. apply place_reserved_one_line.
  - destruct (1 <? rs)%Z; [|done]. by apply reserve_one_line.
  - apply Forall_app. split; [done|]. constructor; [done|].
    apply Forall_replicate, one_line_nil.
Qed.

Section expand_one_line.
Context {C : Type}.
Variable place_cell :
  Z → Z * gmap (Z * Z) str * list str → C
  → res (Z * gmap (Z * Z) str * list str).
Hypothesis place_cell_one_line : ∀ (r_idx : Z) st (c : C) st',
  map_Forall (fun _ v => one_line v) st.1.2 ∧ Forall one_line st.2 →
  place_cell r_idx st c = Returns st' →
  map_Forall (fun _ v => one_line v) st'.1.2 ∧ Forall one_line st'.2.

Lemma expand_row_one_line (r_idx : Z) (carry : gmap (Z * Z) str)
    (r : list C) carry' row_vals :
  map_Forall (fun _ v => one_line v) carry →
  expand_row place_cell r_idx carry r = Returns (carry', row_vals) →
  map_Forall (fun _ v => one_line v) carry' ∧ Forall one_line row_vals.
Proof.
  intros Hc. unfold expand_row.
  intros ([[c1 carry1] rv1] & H1 & H2)%bind_inv.
  apply place_reserved_one_line in H1; [|done|constructor].
  apply bind_inv in H2 as ([[c2 carry2] rv2] & H2 & [= <- <-]).
  exact (foldM_invariant
           (fun st => map_Forall (fun _ v => one_line v) st.1.2
                      ∧ Forall one_line st.2)
           (place_cell r_idx) r (c1, carry1, rv1) (c2, carry2, rv2)
           (fun a x a' => place_cell_one_line r_idx a x a') H1 H2).
Qed.

Lemma expand_rows_one_line (t : list (list C)) rows max_cols :
  expand_rows place_cell t = Returns (rows, max_cols) →
  Forall (Forall one_line) rows.
Proof.
  unfold expand_rows. intros ([[g c] m] & E & [= <- <-])%bind_inv.
  refine (proj1 (foldM_invariant
            (fun st => Forall (Forall one_line) st.1.1
                       ∧ map_Forall (fun _ v => one_line v) st.1.2)
            (expand_step place_cell) (imap pair t) ([], ∅, 0) (g, c, m)
            _ _ E)).
  - intros [[g0 c0] m0] ir [[g1 c1] m1] [Hg Hc]. unfold expand_step.
    intros ([c2 rv] & Hrow & [= <- <- <-])%bind_inv.
    apply expand_row_one_line in Hrow as [Hc2 Hrv]; [|done]. simpl in *.
    split; [|done]. apply Forall_app. split; [done|]. by constructor.
  - split; [constructor|]. apply map_Forall_empty.
Qed.

Lemma expand_one_line (t : list (list C)) grid max_cols :
  expand place_cell t = Returns (grid, max_cols) →
  Forall (Forall one_line) grid.
Proof.
  unfold expand. intros ([rows m] & E & [= <- <-])%bind_inv.
  apply expand_rows_one_line in E.
  change (map ?f ?l) with (f <$> l). apply Forall_fmap.
  eapply Forall_impl; [exact E|].
  intros r Hr. unfold pad. simpl. apply Forall_app. split; [done|].
  apply Forall_replicate, one_line_nil.
Qed.

End expand_one_line.

Lemma place_cell_one_line (r_idx : Z) st (c : cell) st' :
  map_Forall (fun _ v => one_line v) st.1.2 ∧ Forall one_line st.2 →
  place_cell r_idx st c = Returns st' →
  map_Forall (fun _ v => one_line v) st'.1.2 ∧ Forall one_line st'.2.
Proof.
  destruct st as [[c_idx carry] rv], st' as [[c' carry'] rv'].
  intros [Hc Hr]. unfold place_cell. simpl in *.
  apply place_one_line; try done. apply normalize_one_line.
Qed.

Lemma main_place_cell_one_line (r_idx : Z) st (c : Main.node) st' :
  map_Forall (fun _ v => one_line v) st.1.2 ∧ Forall one_line st.2 →
  Main.place_cell r_idx st c = Returns st' →
  map_Forall (fun _ v => one_line v) st'.1.2 ∧ Forall one_line st'.2.
Proof.
  destruct st as [[c_idx carry] rv], st' as [[c' carry'] rv'].
  intros [Hc Hr]. unfold Main.place_cell.
  intros (rs & _ & H)%bind_inv. apply bind_inv in H as (cs & _ & H).
  revert H. simpl in *.
  apply place_one_line; try done. apply normalize_one_line.
Qed.

Lemma propagated_row_one_line cur layer :
  one_line cur → Forall one_line layer →
  Forall one_line (propagated_row cur layer).
Proof.
  intros Hcur Hl. revert cur Hcur.
  induction Hl as [|x l Hx _ IH]; intros cur Hcur; simpl; [constructor|].
  assert (one_line (if truthy (strip x) then strip x else cur)) as H
    by (destruct (truthy (strip x)); [by apply strip_one_line|done]).
  constructor; [done|]. by apply IH.
Qed.

Lemma join_segment_one_line h p seg :
  one_line h → one_line seg → one_line (join_segment h p seg).1.
Proof.
  intros Hh Hs. unfold join_segment.
  destruct (truthy seg); [|done].
  destruct (decide (p = Some seg)); [done|]. cbn [fst].
  destruct (truthy h); [|done].
  apply one_line_app. split; [done|]. apply one_line_app. split; [|done].
  repeat constructor; discriminate.
Qed.

Lemma merge_layers_one_line grid n cols hs ps :
  rectangular cols grid → Forall (Forall one_line) grid →
  merge_layers grid n cols = Returns (hs, ps) → Forall one_line hs.
Proof.
  intros Hrect Hgrid.
  assert (∀ k hs ps, k ≤ length grid →
    merge_layers grid k cols = Returns (hs, ps) → Forall one_line hs) as Hk.
  { induction k as [|k IH]; intros hs' ps' Hle.
    - rewrite merge_layers_le by lia. simpl. intros [= <- <-].
      apply Forall_replicate, one_line_nil.
    - rewrite merge_layers_S by lia.
      destruct (merge_layers_returns grid k cols Hrect)
        as (hs0 & ps0 & E0 & Hl0 & Hl0').
      rewrite E0, bind_Returns.
      destruct (lookup_lt_is_Some_2 grid k) as [layer Hl]; [lia|].
      pose proof (Forall_lookup_1 _ _ _ _ Hrect Hl) as Hlen. simpl in Hlen.
      destruct (merge_layer_spec cols grid hs0 ps0 k layer Hl Hlen Hl0 Hl0')
        as (hs1 & ps1 & -> & Hl1 & _ & Hcol).
      intros [= <- <-]. apply Forall_lookup. intros c x Hx.
      assert (c < cols) by (apply lookup_lt_Some in Hx; lia).
      destruct (lookup_lt_is_Some_2 hs0 c) as [h Hh]; [lia|].
      destruct (lookup_lt_is_Some_2 ps0 c) as [p Hp]; [lia|].
      destruct (lookup_lt_is_Some_2 (propagated_row [] layer) c)
        as [seg Hseg]; [rewrite length_propagated_row; lia|].
      destruct (Hcol c h p seg Hh Hp Hseg) as [Hx' _].
      rewrite Hx in Hx'. injection Hx' as ->.
      apply join_segment_one_line.
      + eapply Forall_lookup_1; [|exact Hh]. by eapply IH; [lia|].
      + eapply Forall_lookup_1; [|exact Hseg].
        apply propagated_row_one_line; [apply one_line_nil|].
        by eapply Forall_lookup_1. }
  destruct (Nat.le_gt_cases n (length grid)); [by apply Hk|].
  rewrite merge_layers_ge by lia. by apply Hk.
Qed.

Lemma uint_one_line d :
  one_line (u (DecimalString.NilEmpty.string_of_uint d)).
Proof.
  induction d; simpl; try (constructor; [discriminate|done]). constructor.
Qed.

Lemma join_one_line sep cells :
  one_line sep → Forall one_line cells → one_line (join sep cells).
Proof.
  intros Hsep. induction 1 as [|c cells Hc Hcells IH]; [constructor|].
  destruct cells as [|c' cells]; [done|].
  change (join sep (c :: c' :: cells))
    with (c ++ sep ++ join sep (c' :: cells)).
  apply one_line_app. split; [done|]. by apply one_line_app.
Qed.

Lemma line_one_line cells : Forall one_line cells → one_line (line cells).
Proof.
  intros H. unfold line. apply one_line_app. split.
  { repeat constructor; discriminate. }
  apply one_line_app. split.
  - apply join_one_line; [|done]. repeat constructor; discriminate.
  - repeat constructor; discriminate.
Qed.

Lemma newlines_app a b : newlines (a ++ b) = newlines a + newlines b.
Proof. unfold newlines. by rewrite filter_app, length_app. Qed.

Lemma newlines_one_line s : one_line s → newlines s = 0.
Proof.
  unfold newlines. induction 1 as [|c s Hc _ IH]; [done|].
  by rewrite filter_cons_False.
Qed.

Lemma newlines_join lines :
  Forall one_line lines →
  newlines (join nl lines) = length lines - 1.
Proof.
  induction 1 as [|l lines Hl Hlines IH]; [done|].
  destruct lines as [|l' lines]; [by apply newlines_one_line|].
  change (join nl (l :: l' :: lines))
    with (l ++ nl ++ join nl (l' :: lines)).
  rewrite !newlines_app, IH, (newlines_one_line l) by done.
  simpl. lia.
Qed.

(** X16.  The Markdown of a table has one line per row and no more: the
    header line, the separator line and one line for each row after the
    header layers.  Line breaks inside cells never reach the output, where
    they are written [<br>]. *)
Theorem rendered_one_line_per_row (t : table) :
  ∃ md, _table_to_markdown t = Returns md
        ∧ newlines md = 1 + (length t - header_layers t).
Proof.
  unfold _table_to_markdown.
  destruct (expand_returns t)
    as (rows & max_cols & Erows & -> & Hlen & _ & Hrect).
  rewrite bind_Returns.
  pose proof (expand_rows_one_line _ place_cell_one_line _ _ _ Erows)
    as Hrows.
  assert (Forall (Forall one_line) (pad max_cols <$> rows)) as Hgrid.
  { apply Forall_fmap. eapply Forall_impl; [exact Hrows|].
    intros r Hr. unfold pad. simpl. apply Forall_app. split; [done|].
    apply Forall_replicate, one_line_nil. }
  destruct (merge_layers_returns _ (header_layers t) _ Hrect)
    as (hs & ps & E & Hhs & _).
  pose proof (merge_layers_one_line _ _ _ _ _ Hrect Hgrid E) as Hhs1.
  destruct (flatten_spec _ _ _ _ _ E Hhs) as (headers & -> & Hhl & Hcol).
  rewrite bind_Returns. eexists. split; [reflexivity|].
  unfold render. rewrite newlines_join.
  - rewrite length_app, length_map, length_drop, length_fmap. simpl. lia.
  - apply Forall_app. split.
    + constructor; [|constructor; [|constructor]].
      * apply line_one_line, Forall_lookup. intros c x Hx.
        destruct (lookup_lt_is_Some_2 hs c) as [h Hh].
        { apply lookup_lt_Some in Hx. lia. }
        rewrite (Hcol c h Hh) in Hx. injection Hx as <-.
        destruct (truthy h); [by eapply Forall_lookup_1|].
        unfold one_line. repeat (constructor; [by compute|]).
        apply uint_one_line.
      * apply line_one_line, Forall_replicate.
        repeat constructor; discriminate.
    + change (map ?f ?l) with (f <$> l). apply Forall_fmap.
      apply Forall_drop. eapply Forall_impl; [exact Hgrid|].
      intros r Hr. simpl. by apply line_one_line, Forall_take.
Qed.

(** ** main.py: what [html_table_to_flat_markdown] raises *)

Lemma foldM_outcome {A B} (ok : B → bool) (e : exn) (f : A → B → res A)
    (l : list B) (a : A) :
  (∀ a x, ok x = true → ∃ a', f a x = Returns a') →
  (∀ a x, ok x = false → f a x = Raises e) →
  if forallb ok l then ∃ a', foldM f a l = Returns a'
  else foldM f a l = Raises e.
Proof.
  intros Hok Hbad. revert a.
  induction l as [|x l IH]; intros a; simpl; [eauto|].
  destruct (ok x) eqn:E; simpl.
  - destruct (Hok a x E) as [a' ->]. simpl. apply IH.
  - by rewrite (Hbad a x E).
Qed.

Lemma forallb_imap_snd {B} (g : B → bool) (f : nat → B → nat * B)
    (l : list B) :
  (∀ i x, (f i x).2 = x) →
  forallb (fun ir => g ir.2) (imap f l) = forallb g l.
Proof.
  revert f. induction l as [|x l IH]; intros f Hf; simpl; [done|].
  rewrite Hf, IH; [done|]. intros i y. apply Hf.
Qed.

Lemma main_span_value_outcome key cell :
  if span_readable key cell
  then ∃ z, Main.span_value key cell = Returns z
  else Main.span_value key cell = Raises ValueError.
Proof.
  unfold span_readable, Main.span_value.
  destruct cell as [|name attrs ch]; [eauto|].
  destruct (attrs !! key) as [v|]; [|eauto].
  destruct (truthy v); cbn [negb orb]; [|eauto].
  unfold int. destruct (int_literal (strip v)); eauto.
Qed.

Lemma main_place_cell_outcome r_idx st cell :
  if spans_readable cell
  then ∃ st', Main.place_cell r_idx st cell = Returns st'
  else Main.place_cell r_idx st cell = Raises ValueError.
Proof.
  unfold spans_readable, Main.place_cell.
  pose proof (main_span_value_outcome (u "rowspan") cell) as Hr.
  pose proof (main_span_value_outcome (u "colspan") cell) as Hc.
  destruct (span_readable (u "rowspan") cell); cbn [andb].
  - destruct Hr as [rs ->]. rewrite bind_Returns.
    destruct (span_readable (u "colspan") cell).
    + destruct Hc as [cs ->]. rewrite bind_Returns. apply place_returns.
    + by rewrite Hc.
  - by rewrite Hr.
Qed.

Lemma main_expand_row_outcome r_idx carry (cells : list Main.node) :
  if forallb spans_readable cells
  then ∃ out, expand_row Main.place_cell r_idx carry cells = Returns out
  else expand_row Main.place_cell r_idx carry cells = Raises ValueError.
Proof.
  unfold expand_row.
  destruct (place_reserved_returns (size carry) r_idx 0 carry [])
    as (c' & carry' & rv' & -> & _); [done|]. rewrite bind_Returns.
  pose proof (foldM_outcome spans_readable ValueError
                (Main.place_cell r_idx) cells (c', carry', rv')) as H.
  destruct (forallb spans_readable cells).
  - destruct H as [[[c1 carry1] rv1] ->].
    + intros a x E. pose proof (main_place_cell_outcome r_idx a x) as Hx.
      by rewrite E in Hx.
    + intros a x E. pose proof (main_place_cell_outcome r_idx a x) as Hx.
      by rewrite E in Hx.
    + simpl. eauto.
  - rewrite H; [done| |].
    + intros a x E. pose proof (main_place_cell_outcome r_idx a x) as Hx.
      by rewrite E in Hx.
    + intros a x E. pose proof (main_place_cell_outcome r_idx a x) as Hx.
      by rewrite E in Hx.
Qed.

Lemma main_expand_outcome (rows : list (list Main.node)) :
  if forallb (forallb spans_readable) rows
  then ∃ out, expand Main.place_cell rows = Returns out
  else expand Main.place_cell rows = Raises ValueError.
Proof.
  unfold expand, expand_rows.
  pose proof (foldM_outcome
                (fun ir : nat * list Main.node => forallb spans_readable ir.2)
                ValueError (expand_step Main.place_cell) (imap pair rows)
                ([], ∅, 0)) as H.
  rewrite forallb_imap_snd in H by done.
  assert (∀ (a : list (list str) * gmap (Z * Z) str * nat)
            (x : nat * list Main.node),
            if forallb spans_readable x.2
            then ∃ a', expand_step Main.place_cell a x = Returns a'
            else expand_step Main.place_cell a x = Raises ValueError) as Hs.
  { intros [[g c] m] ir. unfold expand_step.
    pose proof (main_expand_row_outcome (Z.of_nat ir.1) c ir.2) as Hrow.
    destruct (forallb spans_readable ir.2).
    - destruct Hrow as [[c' rv] ->]. simpl. eauto.
    - by rewrite Hrow. }
  destruct (forallb (forallb spans_readable) rows).
  - destruct H as [[[g c] m] ->].
    + intros a x E. specialize (Hs a x). by rewrite E in Hs.
    + intros a x E. specialize (Hs a x). by rewrite E in Hs.
    + simpl. eauto.
  - rewrite H; [done| |].
    + intros a x E. specialize (Hs a x). by rewrite E in Hs.
    + intros a x E. specialize (Hs a x). by rewrite E in Hs.
Qed.

Lemma table_readable_forallb table :
  table_readable table
  ↔ forallb (forallb spans_readable)
      (map Main.cells (Main.find_all [u "tr"] true table)) = true.
Proof.
  unfold table_readable.
  induction (Main.find_all [u "tr"] true table) as [|tr rows IH]; simpl.
  - split; [done|constructor].
  - rewrite Forall_cons, andb_true_iff, IH.
    assert (Forall (fun cell => spans_readable cell = true) (Main.cells tr)
            ↔ forallb spans_readable (Main.cells tr) = true) as ->; [|done].
    induction (Main.cells tr) as [|c l IHl]; simpl.
    + split; [done|constructor].
    + by rewrite Forall_cons, andb_true_iff, IHl.
Qed.

Lemma main_grid_cases table :
  (table_readable table
   ∧ ∃ grid, Main._build_grid_with_spans table = Returns grid)
  ∨ (¬ table_readable table
     ∧ Main._build_grid_with_spans table = Raises ValueError).
Proof.
  rewrite table_readable_forallb. unfold Main._build_grid_with_spans.
  pose proof (main_expand_outcome
                (map Main.cells (Main.find_all [u "tr"] true table))) as H.
  destruct (forallb _ _).
  - left. split; [done|]. destruct H as [[grid m] ->]. simpl. eauto.
  - right. split; [done|]. by rewrite H.
Qed.

(** X17.  [_build_grid_with_spans] of main.py returns a grid exactly when
    every [rowspan] and [colspan] attribute of every cell it visits is
    missing, empty or an integer literal; otherwise it raises [ValueError],
    the exception of the unguarded [int(...)] of lines 62 and 63. *)
Theorem main_grid_outcome table :
  (table_readable table
   ∧ ∃ grid, Main._build_grid_with_spans table = Returns grid)
  ∨ (¬ table_readable table
     ∧ Main._build_grid_with_spans table = Raises ValueError).
Proof. apply main_grid_cases. Qed.

Lemma main_headers_return table grid :
  Main._build_grid_with_spans table = Returns grid →
  ∃ headers,
    Main._flatten_header_layers grid (Main._count_header_layers table)
    = Returns headers
    ∧ Forall (fun r => length r = length headers) grid.
Proof.
  intros Eg. destruct (main_grid_rectangular _ _ Eg) as [cols Hrect].
  destruct grid as [|first rest]; [by exists []|].
  rewrite main_flatten_header_layers.
  assert (length first = cols) as ->
    by (by apply Forall_cons in Hrect as [? _]).
  destruct (merge_layers_returns (first :: rest)
              (Main._count_header_layers table) cols Hrect)
    as (hs & ps & Em & Hhs & _).
  destruct (flatten_spec _ _ _ _ _ Em Hhs) as (headers & -> & Hl & _).
  exists headers. by rewrite Hl.
Qed.

(** X18.  When [soup.find("table")] gives a table,
    [html_table_to_flat_markdown] returns a text exactly when every
    [rowspan] and [colspan] attribute of the cells it visits is missing,
    empty or an integer literal, and raises [ValueError] otherwise: once
    the grid is built nothing raises, no index of the grid or of the
    header lists is out of range. *)
Theorem main_outcome_of_table html table :
  Main.find_table (Main.soup html) = Some table →
  (table_readable table
   ∧ ∃ md, Main.html_table_to_flat_markdown html = Returns md)
  ∨ (¬ table_readable table
     ∧ Main.html_table_to_flat_markdown html = Raises ValueError).
Proof.
  intros Et. unfold Main.html_table_to_flat_markdown. rewrite Et.
  destruct (main_grid_cases table) as [[Hr [grid Eg]]|[Hr Eg]].
  - left. split; [done|]. rewrite Eg, bind_Returns.
    destruct (main_headers_return _ _ Eg) as (headers & -> & _).
    rewrite bind_Returns. by eexists.
  - right. split; [done|]. by rewrite Eg.
Qed.

Lemma main_outcome_of_table_witness :
  ∃ table,
    Main.find_table (Main.soup unreadable_table) = Some table
    ∧ ((table_readable table
        ∧ ∃ md, Main.html_table_to_flat_markdown unreadable_table
                = Returns md)
       ∨ (¬ table_readable table
          ∧ Main.html_table_to_flat_markdown unreadable_table
            = Raises ValueError)).
Proof.
  destruct (Main.find_table (Main.soup unreadable_table)) as [table|] eqn:E;
    [|by vm_compute in E].
  exists table. split; [done|].
  apply (main_outcome_of_table unreadable_table table E).
Defined.

(** ** main.py: what [_to_markdown] is given *)

Lemma main_to_markdown_rectangular headers body :
  Forall (fun r => length r = length headers) body →
  Main._to_markdown headers body = markdown_lines headers body.
Proof.
  intros Hbody. unfold Main._to_markdown, markdown_lines.
  change (map ?f ?l) with (f <$> l).
  assert ((fun r : list str =>
             line (take (length headers) r
                   ++ replicate (Nat.max 0 (length headers - length r)) []))
            <$> body = line <$> body) as ->; [|done].
  apply Forall_fmap_ext. eapply Forall_impl; [exact Hbody|].
  intros r Hr. cbv beta in *. rewrite take_ge by lia.
  replace (length headers - length r) with 0 by lia.
  by rewrite app_nil_r.
Qed.

Lemma main_markdown html table md :
  Main.find_table (Main.soup html) = Some table →
  Main.html_table_to_flat_markdown html = Returns md →
  ∃ grid headers,
    Main._build_grid_with_spans table = Returns grid
    ∧ Main._flatten_header_layers grid (Main._count_header_layers table)
      = Returns headers
    ∧ Forall (fun r => length r = length headers) grid
    ∧ md = markdown_lines headers
             (drop (Main._count_header_layers table) grid).
Proof.
  unfold Main.html_table_to_flat_markdown. intros ->.
  intros (grid & Eg & H)%bind_inv.
  apply bind_inv in H as (headers & Eh & [= <-]).
  destruct (main_headers_return _ _ Eg) as (headers' & Eh' & Hrect).
  rewrite Eh in Eh'. injection Eh' as <-.
  exists grid, headers. split_and!; try done.
  destruct (Nat.ltb_spec (Main._count_header_layers table) (length grid)).
  - apply main_to_markdown_rectangular. by apply Forall_drop.
  - by rewrite drop_ge by lia.
Qed.

(** X19.  What main.py returns for a text with a table is the header line,
    the separator line and one line for each row of the grid after the
    header rows, each row as the grid has it: the grid is rectangular and
    as wide as the header row, so line 164 neither cuts nor pads a row,
    and line 31 is [grid[header_rows:]]. *)
Theorem main_rows_rendered_unchanged html md :
  Main.html_table_to_flat_markdown html = Returns md →
  (Main.find_table (Main.soup html) = None ∧ md = [])
  ∨ ∃ table grid headers,
      Main.find_table (Main.soup html) = Some table
      ∧ Main._build_grid_with_spans table = Returns grid
      ∧ Main._flatten_header_layers grid (Main._count_header_layers table)
        = Returns headers
      ∧ Forall (fun r => length r = length headers) grid
      ∧ md = markdown_lines headers
               (drop (Main._count_header_layers table) grid).
Proof.
  intros H. destruct (Main.find_table (Main.soup html)) as [table|] eqn:E.
  - right. exists table.
    destruct (main_markdown _ _ _ E H) as (grid & headers & ?).
    exists grid, headers. by split.
  - left. split; [done|]. unfold Main.html_table_to_flat_markdown in H.
    rewrite E in H. by injection H.
Qed.

Lemma main_rows_rendered_unchanged_witness :
  (Main.find_table (Main.soup example_table) = None ∧ example_markdown = [])
  ∨ ∃ table grid headers,
      Main.find_table (Main.soup example_table) = Some table
      ∧ Main._build_grid_with_spans table = Returns grid
      ∧ Main._flatten_header_layers grid (Main._count_header_layers table)
        = Returns headers
      ∧ Forall (fun r => length r = length headers) grid
      ∧ example_markdown
        = markdown_lines headers
            (drop (Main._count_header_layers table) grid).
Proof.
  apply (main_rows_rendered_unchanged example_table example_markdown).
  vm_compute. reflexivity.
Defined.

(** ** main.py: rows below [thead] and [tbody] *)

Lemma flatten_without_layers grid cols :
  flatten grid 0 cols = Returns (col_names cols).
Proof.
  assert (merge_layers grid 0 cols
          = Returns (replicate cols [], replicate cols None)) as E
    by reflexivity.
  destruct (flatten_spec _ _ _ _ _ E (length_replicate _ _))
    as (headers & -> & Hlen & Hcol).
  f_equal. apply list_eq. intros c. unfold col_names.
  destruct (decide (c < cols)).
  - rewrite (Hcol c []) by by apply lookup_replicate_2.
    by rewrite list_lookup_fmap, lookup_seq_lt.
  - rewrite !lookup_ge_None_2; [done|..];
      rewrite ?length_fmap, ?length_seq; lia.
Qed.

(** X20.  main.py counts the header rows among the [tr] that are children
    of the table, and builds the grid from every [tr] below it.  When the
    rows are all wrapped (in [thead], [tbody] or anything else) no row is a
    header row: the columns are called [col_1], [col_2], ... and every row,
    the rows of [th] too, is rendered as a body row. *)
Theorem main_wrapped_rows_are_body html table md :
  Main.find_table (Main.soup html) = Some table →
  Main.find_all [u "tr"] false table = [] →
  Main.html_table_to_flat_markdown html = Returns md →
  ∃ grid,
    Main._build_grid_with_spans table = Returns grid
    ∧ length grid = length (Main.find_all [u "tr"] true table)
    ∧ md = markdown_lines (col_names (length (default [] (head grid)))) grid.
Proof.
  intros Et Htr H.
  destruct (main_markdown _ _ _ Et H) as (grid & headers & Eg & Eh & _ & ->).
  assert (Main._count_header_layers table = 0) as Hc
    by (unfold Main._count_header_layers; by rewrite Htr).
  rewrite Hc in *. exists grid. split_and!; [done| |].
  - revert Eg. unfold Main._build_grid_with_spans, expand.
    intros ([g m] & ([rows m'] & E & [= <- <-])%bind_inv & [= <-])%bind_inv.
    apply expand_rows_spec in E as [E _]. simpl.
    by rewrite length_map, E, length_map.
  - rewrite drop_0. f_equal. destruct grid as [|first rest].
    + by injection Eh as <-.
    + rewrite main_flatten_header_layers, flatten_without_layers in Eh.
      by injection Eh as <-.
Qed.

Lemma main_wrapped_rows_are_body_witness :
  ∃ table grid,
    Main.find_table (Main.soup wrapped_table) = Some table
    ∧ Main.find_all [u "tr"] false table = []
    ∧ Main._build_grid_with_spans table = Returns grid
    ∧ length grid = length (Main.find_all [u "tr"] true table)
    ∧ wrapped_markdown
      = markdown_lines (col_names (length (default [] (head grid)))) grid.
Proof.
  destruct (Main.find_table (Main.soup wrapped_table)) as [table|] eqn:E;
    [|by vm_compute in E].
  assert (Main.find_all [u "tr"] false table = []) as Htr.
  { revert E. vm_compute. by intros [= <-]. }
  assert (Main.html_table_to_flat_markdown wrapped_table
          = Returns wrapped_markdown) as H by (vm_compute; reflexivity).
  destruct (main_wrapped_rows_are_body wrapped_table table wrapped_markdown
              E Htr H) as (grid & ? & ? & ?).
  by exists table, grid.
Defined.

(** ** main.py: line breaks *)

Lemma flatten_one_line grid layers cols headers :
  rectangular cols grid → Forall (Forall one_line) grid →
  flatten grid layers cols = Returns headers → Forall one_line headers.
Proof.
  intros Hrect Hgrid Eh.
  destruct (merge_layers_returns _ layers _ Hrect) as (hs & ps & E & Hhs & _).
  pose proof (merge_layers_one_line _ _ _ _ _ Hrect Hgrid E) as Hhs1.
  destruct (flatten_spec _ _ _ _ _ E Hhs) as (headers' & Eh' & Hhl & Hcol).
  rewrite Eh in Eh'. injection Eh' as <-.
  apply Forall_lookup. intros c x Hx.
  destruct (lookup_lt_is_Some_2 hs c) as [h Hh].
  { apply lookup_lt_Some in Hx. lia. }
  rewrite (Hcol c h Hh) in Hx. injection Hx as <-.
  destruct (truthy h); [by eapply Forall_lookup_1|].
  unfold one_line. repeat (constructor; [by compute|]).
  apply uint_one_line.
Qed.

Lemma markdown_lines_newlines headers body :
  Forall one_line headers → Forall (Forall one_line) body →
  newlines (markdown_lines headers body) = 1 + length body.
Proof.
  intros Hh Hb. unfold markdown_lines. rewrite newlines_join.
  - simpl. rewrite length_fmap. lia.
  - constructor; [by apply line_one_line|]. constructor.
    + apply line_one_line, Forall_replicate.
      repeat constructor; discriminate.
    + apply Forall_fmap. eapply Forall_impl; [exact Hb|].
      intros r Hr. by apply line_one_line.
Qed.

(** X21.  The Markdown of main.py has one line per row too: the header
    line, the separator line and one line for each [tr] below the table
    after the header rows.  [get_text] joins the strings of a cell with
    line breaks and [_normalize_text] writes each of them, and those inside
    the strings, as [<br>]. *)
Theorem main_one_line_per_row html md :
  Main.html_table_to_flat_markdown html = Returns md →
  match Main.find_table (Main.soup html) with
  | Some table =>
      newlines md
      = 1 + (length (Main.find_all [u "tr"] true table)
             - Main._count_header_layers table)
  | None => md = []
  end.
Proof.
  intros H. destruct (Main.find_table (Main.soup html)) as [table|] eqn:Et.
  - destruct (main_markdown _ _ _ Et H)
      as (grid & headers & Eg & Eh & Hrect & ->).
    revert Eg. unfold Main._build_grid_with_spans.
    intros ([g m] & E & [= <-])%bind_inv.
    pose proof (expand_one_line _ main_place_cell_one_line _ _ _ E) as Hg.
    assert (length g = length (Main.find_all [u "tr"] true table)) as Hlen.
    { revert E. unfold expand.
      intros ([rows m'] & E & [= <- <-])%bind_inv.
      apply expand_rows_spec in E as [E _].
      by rewrite length_map, E, length_map. }
    simpl in Eh, Hrect |- *.
    rewrite markdown_lines_newlines.
    + rewrite length_drop. lia.
    + destruct g as [|first rest]; [by injection Eh as <-|].
      rewrite main_flatten_header_layers in Eh.
      eapply flatten_one_line; [|exact Hg|exact Eh].
      apply Forall_cons in Hrect as Hf. destruct Hf as [-> _]. exact Hrect.
    + by apply Forall_drop.
  - unfold Main.html_table_to_flat_markdown in H. rewrite Et in H.
    by injection H.
Qed.

Lemma main_one_line_per_row_witness :
  match Main.find_table (Main.soup (u "<table><tr><td>1<br>2</td></tr></table>")) with
  | Some table =>
      newlines (u "| col_1 |" ++ nl ++ u "| :--- |" ++ nl ++ u "| 1<br>2 |")
      = 1 + (length (Main.find_all [u "tr"] true table)
             - Main._count_header_layers table)
  | None => u "| col_1 |" ++ nl ++ u "| :--- |" ++ nl ++ u "| 1<br>2 |" = []
  end.
Proof.
  apply (main_one_line_per_row
           (u "<table><tr><td>1<br>2</td></tr></table>")).
  vm_compute. reflexivity.
Defined.

(** ** The entry point of dify.py *)

